(** * book-maker.py: a Polyglot opening book from the search tree of lc0

    A shallow embedding of [src/book-maker.py].  Python integers are [Z],
    byte strings and text are [string] (eight-bit characters), the bytes
    written to a book file are [list byte].  Code that can raise returns an
    [outcome].  The chess rules (python-chess) are a collaborator: what the
    script calls from it is either modelled from its documented behaviour
    (squares, piece types, [Move.uci], [Board.is_castling]) or a member of
    the interface [ChessLib] ([Move.from_uci], [zobrist_hash], [is_legal],
    [push]), over which the driver and the traversal are generic. *)

From Stdlib Require Import ZArith List String Ascii Bool Lia Arith.
From Stdlib Require Import Permutation Sorted.
From Stdlib.Strings Require Import Byte.
Import ListNotations.

Open Scope Z_scope.

(** ** Exceptions and results *)

Inductive exn : Type :=
| AttributeError
| ValueError
| KeyError
| IndexError
| AssertionError
| StructError.

(** The result of running a piece of Python: a value, an exception, or (for
    the functions defined with a step budget) the budget ran out. *)
Inductive outcome (A : Type) : Type :=
| Ok (a : A)
| Raise (e : exn)
| OutOfFuel.

Arguments Ok {A} a.
Arguments Raise {A} e.
Arguments OutOfFuel {A}.

Definition bind {A B : Type} (c : outcome A) (k : A -> outcome B) : outcome B :=
  match c with
  | Ok a => k a
  | Raise e => Raise e
  | OutOfFuel => OutOfFuel
  end.

Declare Scope py_scope.
Delimit Scope py_scope with py.
Notation "x <- c ;; k" := (bind c (fun x => k))
  (at level 61, c at next level, right associativity) : py_scope.
Open Scope py_scope.

Fixpoint mapM {A B : Type} (f : A -> outcome B) (l : list A) : outcome (list B) :=
  match l with
  | [] => Ok []
  | x :: l' => y <- f x ;; ys <- mapM f l' ;; Ok (y :: ys)
  end.

(** ** Squares, pieces and moves (python-chess) *)

Inductive PieceType : Type := PAWN | KNIGHT | BISHOP | ROOK | QUEEN | KING.

Definition PieceType_eqb (p q : PieceType) : bool :=
  match p, q with
  | PAWN, PAWN | KNIGHT, KNIGHT | BISHOP, BISHOP
  | ROOK, ROOK | QUEEN, QUEEN | KING, KING => true
  | _, _ => false
  end.

(** [chess.Move]: squares are integers, [0] is a1 and [63] is h8. *)
Record Move : Type := mkMove {
  from_square : Z;
  to_square : Z;
  promotion : option PieceType;
  drop : option PieceType
}.

Definition option_eqb {A : Type} (eqb : A -> A -> bool) (x y : option A) : bool :=
  match x, y with
  | Some a, Some b => eqb a b
  | None, None => true
  | _, _ => false
  end.

(** [Move.__eq__]: all four fields agree. *)
Definition Move_eqb (m n : Move) : bool :=
  (from_square m =? from_square n) && (to_square m =? to_square n)
  && option_eqb PieceType_eqb (promotion m) (promotion n)
  && option_eqb PieceType_eqb (drop m) (drop n).

Definition FILE_NAMES : list string :=
  ["a"; "b"; "c"; "d"; "e"; "f"; "g"; "h"]%string.
Definition RANK_NAMES : list string :=
  ["1"; "2"; "3"; "4"; "5"; "6"; "7"; "8"]%string.
Definition SQUARE_NAMES : list string :=
  flat_map (fun r => map (fun f => (f ++ r)%string) FILE_NAMES) RANK_NAMES.

(** [l[i]] of a Python list: a negative index counts from the end. *)
Definition py_index {A : Type} (l : list A) (i : Z) : outcome A :=
  let n := Z.of_nat (List.length l) in
  let j := if i <? 0 then i + n else i in
  if (0 <=? j) && (j <? n)
  then match nth_error l (Z.to_nat j) with
       | Some x => Ok x
       | None => Raise IndexError
       end
  else Raise IndexError.

(** [PIECE_SYMBOLS[p]] *)
Definition piece_symbol (p : PieceType) : string :=
  match p with
  | PAWN => "p" | KNIGHT => "n" | BISHOP => "b"
  | ROOK => "r" | QUEEN => "q" | KING => "k"
  end%string.

Definition piece_symbol_upper (p : PieceType) : string :=
  match p with
  | PAWN => "P" | KNIGHT => "N" | BISHOP => "B"
  | ROOK => "R" | QUEEN => "Q" | KING => "K"
  end%string.

(** [Move.uci()]: the long-algebraic form of a move. *)
Definition uci (m : Move) : outcome string :=
  match drop m with
  | Some d =>
      t <- py_index SQUARE_NAMES (to_square m) ;;
      Ok (piece_symbol_upper d ++ "@" ++ t)%string
  | None =>
      match promotion m with
      | Some p =>
          f <- py_index SQUARE_NAMES (from_square m) ;;
          t <- py_index SQUARE_NAMES (to_square m) ;;
          Ok (f ++ t ++ piece_symbol p)%string
      | None =>
          if negb (from_square m =? 0) || negb (to_square m =? 0)
          then f <- py_index SQUARE_NAMES (from_square m) ;;
               t <- py_index SQUARE_NAMES (to_square m) ;;
               Ok (f ++ t)%string
          else Ok "0000"%string
      end
  end.

(** ** Boards (python-chess bitboards) *)

Record Board : Type := mkBoard {
  pawns : Z;
  knights : Z;
  bishops : Z;
  rooks : Z;
  queens : Z;
  kings : Z;
  occupied_white : Z;
  occupied_black : Z;
  turn : bool;              (* [true] is white *)
  castling_rights : Z;
  ep_square : option Z
}.

Definition BB_SQUARE (sq : Z) : Z := Z.shiftl 1 sq.
Definition bb_of (sqs : list Z) : Z :=
  fold_right (fun sq bb => Z.lor (BB_SQUARE sq) bb) 0 sqs.
Definition square_file (sq : Z) : Z := Z.land sq 7.
Definition square_rank (sq : Z) : Z := Z.shiftr sq 3.
Definition occupied_co (b : Board) (color : bool) : Z :=
  if color then occupied_white b else occupied_black b.

(** [Board.is_castling]: a king move of more than one file, or a king move
    onto a rook of its own side. *)
Definition is_castling (b : Board) (m : Move) : bool :=
  if negb (Z.land (kings b) (BB_SQUARE (from_square m)) =? 0)
  then let diff := square_file (from_square m) - square_file (to_square m) in
       (1 <? Z.abs diff)
       || negb (Z.land (Z.land (rooks b) (occupied_co b (turn b)))
                       (BB_SQUARE (to_square m)) =? 0)
  else false.

(** [Board.is_kingside_castling]: a castling move towards the h-file. *)
Definition is_kingside_castling (b : Board) (m : Move) : bool :=
  is_castling b m && (square_file (from_square m) <? square_file (to_square m)).

(** The square the castling rook starts from in standard chess: the h-file
    or a-file square of the king's rank. *)
Definition castling_rook_square (b : Board) (m : Move) : Z :=
  8 * square_rank (from_square m) + (if is_kingside_castling b m then 7 else 0).

(** [chess.Board()]: the initial position. *)
Definition starting_board : Board := {|
  pawns := 0x00ff00000000ff00;
  knights := 0x4200000000000042;
  bishops := 0x2400000000000024;
  rooks := 0x8100000000000081;
  queens := 0x0800000000000008;
  kings := 0x1000000000000010;
  occupied_white := 0xffff;
  occupied_black := 0xffff000000000000;
  turn := true;
  castling_rights := 0x8100000000000081;
  ep_square := None
|}.

(** ** The move code: [move_to_polyglot_int] *)

(** The dictionary literal of lines 14-20, looked up at [move.promotion]. *)
Definition promotion_code (p : option PieceType) : outcome Z :=
  match p with
  | None => Ok 0
  | Some KNIGHT => Ok 1
  | Some BISHOP => Ok 2
  | Some ROOK => Ok 3
  | Some QUEEN => Ok 4
  | Some _ => Raise KeyError
  end.

Definition move_to_polyglot_int (board : Board) (move : Move) : outcome Z :=
  let to_square := to_square move in
  let from_square := from_square move in
  promotion <- promotion_code (promotion move) ;;
  Ok (Z.lor (Z.lor to_square (Z.shiftl from_square 6)) (Z.shiftl promotion 12)).

(** The fields of a 16-bit move code. *)
Definition code_to_square (c : Z) : Z := Z.land c 63.
Definition code_from_square (c : Z) : Z := Z.land (Z.shiftr c 6) 63.
Definition code_promotion (c : Z) : Z := Z.land (Z.shiftr c 12) 7.

(** What every legal move of python-chess satisfies: squares on the board and
    a promotion piece, if any, among knight, bishop, rook and queen. *)
Definition is_square (sq : Z) : Prop := 0 <= sq < 64.
Definition legal_promotion (p : option PieceType) : Prop :=
  p <> Some PAWN /\ p <> Some KING.
Definition move_wf (m : Move) : Prop :=
  is_square (from_square m) /\ is_square (to_square m)
  /\ legal_promotion (promotion m).

(** ** Byte strings and text *)

Definition newline : ascii := "010"%char.
Definition space : ascii := " "%char.
Definition squote : ascii := "'"%char.
Definition dquote : ascii := "034"%char.
Definition backslash : ascii := "\"%char.

(** [s] starts with [pat]. *)
Fixpoint starts_with (pat s : string) : bool :=
  match pat, s with
  | EmptyString, _ => true
  | String _ _, EmptyString => false
  | String a pat', String b s' => Ascii.eqb a b && starts_with pat' s'
  end.

(** [pat in s] *)
Fixpoint contains (pat s : string) : bool :=
  match s with
  | EmptyString => starts_with pat EmptyString
  | String _ s' => starts_with pat s || contains pat s'
  end.

Fixpoint has_char (c : ascii) (s : string) : bool :=
  match s with
  | EmptyString => false
  | String d s' => Ascii.eqb c d || has_char c s'
  end.

(** The first line of a stream, its newline included, and what follows: the
    result of one [readline()] on a pipe that holds [s] and is then closed.
    At the end of the stream the line is empty. *)
Fixpoint split_line (s : string) : string * string :=
  match s with
  | EmptyString => (EmptyString, EmptyString)
  | String c s' =>
      if Ascii.eqb c newline then (String c EmptyString, s')
      else let (line, rest) := split_line s' in (String c line, rest)
  end.

Definition hex_digit (n : N) : ascii :=
  match n with
  | 0%N => "0" | 1%N => "1" | 2%N => "2" | 3%N => "3" | 4%N => "4"
  | 5%N => "5" | 6%N => "6" | 7%N => "7" | 8%N => "8" | 9%N => "9"
  | 10%N => "a" | 11%N => "b" | 12%N => "c" | 13%N => "d" | 14%N => "e"
  | _ => "f"
  end%char.

(** One byte of [repr(bytes)], written inside quotes [q]. *)
Definition repr_byte (q c : ascii) : string :=
  if Ascii.eqb c q || Ascii.eqb c backslash then String backslash (String c EmptyString)
  else if Ascii.eqb c "009"%char then String backslash "t"
  else if Ascii.eqb c newline then String backslash "n"
  else if Ascii.eqb c "013"%char then String backslash "r"
  else let n := N_of_ascii c in
       if (n <? 32)%N || (127 <=? n)%N
       then String backslash
              (String "x" (String (hex_digit (n / 16)) (String (hex_digit (n mod 16)) EmptyString)))
       else String c EmptyString.

Fixpoint repr_body (q : ascii) (b : string) : string :=
  match b with
  | EmptyString => String q EmptyString
  | String c b' => (repr_byte q c ++ repr_body q b')%string
  end.

(** [str(line)] for a byte string [line], that is [repr(line)]: the letter b,
    then the bytes between single quotes (double quotes when the bytes hold a
    single quote and no double quote), with the escapes of CPython. *)
Definition py_str_bytes (b : string) : string :=
  let q := if has_char squote b && negb (has_char dquote b) then dquote else squote in
  String "b" (String q (repr_body q b)).

Fixpoint drop_chars (n : nat) (s : string) : string :=
  match n, s with
  | O, _ => s
  | S n', String _ s' => drop_chars n' s'
  | S _, EmptyString => EmptyString
  end.

(** The longest run of characters other than a space at the start of [s]. *)
Fixpoint non_spaces (s : string) : string :=
  match s with
  | EmptyString => EmptyString
  | String c s' => if Ascii.eqb c space then EmptyString else String c (non_spaces s')
  end.

(** A match of [pfx([^ ]+)] at the start of [s]: the group. *)
Definition match_here (pfx s : string) : option string :=
  if starts_with pfx s
  then match non_spaces (drop_chars (String.length pfx) s) with
       | EmptyString => None
       | g => Some g
       end
  else None.

(** [re.search(pfx + "([^ ]+)", s)]: the group of the leftmost match, for a
    literal [pfx]; [None] when nothing matches. *)
Fixpoint re_search (pfx s : string) : option string :=
  match match_here pfx s with
  | Some g => Some g
  | None => match s with
            | EmptyString => None
            | String _ s' => re_search pfx s'
            end
  end.

Definition digit_value (c : ascii) : option Z :=
  let n := N_of_ascii c in
  if (48 <=? n)%N && (n <=? 57)%N then Some (Z.of_N n - 48) else None.

(** Decimal digits, single underscores allowed between two digits. *)
Fixpoint digits_value (acc : Z) (after_digit : bool) (s : string) : option Z :=
  match s with
  | EmptyString => if after_digit then Some acc else None
  | String c s' =>
      match digit_value c with
      | Some d => digits_value (acc * 10 + d) true s'
      | None =>
          if Ascii.eqb c "_"%char && after_digit then digits_value acc false s'
          else None
      end
  end.

(** [int(s)] for a text [s] without white space (the driver passes a run of
    characters other than a space, taken from the repr of a byte string,
    where all other white space is escaped): an optional sign, then decimal
    digits with optional single underscores.  The cap that recent Python
    versions put on the number of digits is left out. *)
Definition py_int (s : string) : outcome Z :=
  let parsed :=
    match s with
    | String "-" s' => option_map Z.opp (digits_value 0 false s')
    | String "+" s' => digits_value 0 false s'
    | _ => digits_value 0 false s
    end in
  match parsed with
  | Some v => Ok v
  | None => Raise ValueError
  end.

(** [str(n)] for an integer. *)
Fixpoint pos_digits (fuel : nat) (n : Z) (acc : string) : string :=
  match fuel with
  | O => acc
  | S fuel' =>
      let acc' := String (ascii_of_N (Z.to_N (48 + n mod 10))) acc in
      if n <? 10 then acc' else pos_digits fuel' (n / 10) acc'
  end.

Definition py_str_int (n : Z) : string :=
  if n <? 0 then String "-" (pos_digits (S (Z.to_nat (Z.log2 (- n)))) (- n) EmptyString)
  else pos_digits (S (Z.to_nat (Z.log2 n))) n EmptyString.

(** ** Book entries: [chess.polyglot.Entry] and [ENTRY_STRUCT] *)

Record Entry : Type := mkEntry {
  key : Z;
  raw_move : Z;
  weight : Z;
  learn : Z
}.

Definition byte_of_Z (v : Z) : byte :=
  match Byte.of_N (Z.to_N (v mod 256)) with
  | Some b => b
  | None => x00
  end.

Definition Z_of_byte (b : byte) : Z := Z.of_N (Byte.to_N b).

(** The [n] low bytes of [v], most significant first. *)
Fixpoint be_bytes (n : nat) (v : Z) : list byte :=
  match n with
  | O => []
  | S n' => byte_of_Z (Z.shiftr v (8 * Z.of_nat n')) :: be_bytes n' v
  end.

(** The integer a big-endian byte sequence stands for. *)
Definition be_value (bs : list byte) : Z :=
  fold_left (fun acc b => acc * 256 + Z_of_byte b) bs 0.

Definition fits (bits : Z) (v : Z) : bool := (0 <=? v) && (v <? 2 ^ bits).

Definition entry_in_range (e : Entry) : bool :=
  fits 64 (key e) && fits 16 (raw_move e) && fits 16 (weight e) && fits 32 (learn e).

(** [ENTRY_STRUCT.pack( *entry)] with [ENTRY_STRUCT = struct.Struct(">QHHL")]:
    sixteen bytes, or [struct.error] when a field is out of range. *)
Definition pack_entry (e : Entry) : outcome (list byte) :=
  if entry_in_range e
  then Ok (be_bytes 8 (key e) ++ be_bytes 2 (raw_move e)
           ++ be_bytes 2 (weight e) ++ be_bytes 4 (learn e))
  else Raise StructError.

(** [sorted(entries, key=lambda entry: entry.key)].  Python's sort is stable,
    and a stable sort has one possible result; it is computed here by
    insertion, an entry going before the entries already placed whose key is
    not smaller. *)
Fixpoint insert_by_key (e : Entry) (l : list Entry) : list Entry :=
  match l with
  | [] => [e]
  | x :: l' => if key e <=? key x then e :: l else x :: insert_by_key e l'
  end.

Definition sorted_by_key (entries : list Entry) : list Entry :=
  fold_right insert_by_key [] entries.

(** The loop of [write_polyglot_bin]; [f] is what the file holds so far.  An
    entry that does not pack raises after the entries before it were written. *)
Fixpoint write_entries (f : list byte) (entries : list Entry) : outcome unit * list byte :=
  match entries with
  | [] => (Ok tt, f)
  | entry :: rest =>
      match pack_entry entry with
      | Ok bs => write_entries (f ++ bs) rest
      | Raise e => (Raise e, f)
      | OutOfFuel => (OutOfFuel, f)
      end
  end.

Definition write_polyglot_bin (f : list byte) (entries : list Entry) : outcome unit * list byte :=
  let entries := sorted_by_key entries in
  write_entries f entries.

(** Reading a book back: the records of a byte sequence, sixteen bytes each. *)
Definition unpack_entry (bs : list byte) : Entry :=
  {| key := be_value (firstn 8 bs);
     raw_move := be_value (firstn 2 (skipn 8 bs));
     weight := be_value (firstn 2 (skipn 10 bs));
     learn := be_value (firstn 4 (skipn 12 bs)) |}.

Fixpoint read_entries (n : nat) (bs : list byte) : list Entry :=
  match n with
  | O => []
  | S n' => unpack_entry (firstn 16 bs) :: read_entries n' (skipn 16 bs)
  end.

Definition read_polyglot_bin (bs : list byte) : list Entry :=
  read_entries (Nat.div (List.length bs) 16) bs.

(** ** Dictionaries from moves to visit counts

    A Python [dict] keeps its keys in insertion order; assigning to a key
    that is present replaces the value in place. *)

Definition dict : Type := list (Move * Z).

Fixpoint dict_set (d : dict) (k : Move) (v : Z) : dict :=
  match d with
  | [] => [(k, v)]
  | (k', v') :: d' =>
      if Move_eqb k k' then (k', v) :: d' else (k', v') :: dict_set d' k v
  end.

(** [d[k]], the bound method [d.__getitem__]. *)
Fixpoint getitem (d : dict) (k : Move) : outcome Z :=
  match d with
  | [] => Raise KeyError
  | (k', v) :: d' => if Move_eqb k k' then Ok v else getitem d' k
  end.

Definition dict_keys (d : dict) : list Move := map fst d.

(** [max(iterable, key=f)]: the first item whose key is largest. *)
Fixpoint max_loop (f : Move -> outcome Z) (best : Move) (best_key : Z)
    (items : list Move) : outcome Move :=
  match items with
  | [] => Ok best
  | item :: rest =>
      v <- f item ;;
      if best_key <? v then max_loop f item v rest else max_loop f best best_key rest
  end.

Definition py_max (f : Move -> outcome Z) (items : list Move) : outcome Move :=
  match items with
  | [] => Raise ValueError
  | item :: rest => v <- f item ;; max_loop f item v rest
  end.

(** ** The chess library as an interface *)

Class ChessLib : Type := {
  (** [chess.Move.from_uci]; [None] when it raises [ValueError] *)
  from_uci : string -> option Move;
  (** [chess.polyglot.zobrist_hash] *)
  zobrist_hash : Board -> Z;
  (** [Board.is_legal] *)
  is_legal : Board -> Move -> bool;
  (** [Board.push], on a copy of the board *)
  push : Board -> Move -> Board
}.

(** ** The engine process: [LeelaInterface] *)

(** The two pipes of [self.proc]: everything written to the engine so far,
    and what the engine will still write before it closes its output. *)
Record Leela : Type := mkLeela {
  stdin : string;
  stdout : string
}.

Definition send (s : string) (self : Leela) : Leela :=
  {| stdin := (stdin self ++ s)%string; stdout := stdout self |}.

Definition readline (self : Leela) : string * Leela :=
  let (line, rest) := split_line (stdout self) in
  (line, {| stdin := stdin self; stdout := rest |}).

Definition line_end : string := String newline EmptyString.

(** ["".join(l)] *)
Definition join (l : list string) : string := fold_right append EmptyString l.

(** [clear_buffer]: the loop of the reader thread.  Printing is left out. *)
Fixpoint clear_buffer (fuel : nat) (self : Leela) : outcome unit * Leela :=
  match fuel with
  | O => (OutOfFuel, self)
  | S fuel' =>
      let (line, self') := readline self in
      match line with
      | EmptyString => (Raise ValueError, self')
      | _ =>
          if contains "bestmove" line then (Ok tt, self')
          else clear_buffer fuel' self'
      end
  end.

(** [launch]: the two commands; the thread it starts is accounted for in
    [stop]. *)
Definition launch (self : Leela) : Leela :=
  send ("go infinite" ++ line_end) (send ("position startpos" ++ line_end) self).

(** [stop]: the command, then the join.  Between [launch] and the end of
    [stop] only the reader thread reads [stdout] and only the main thread
    writes [stdin], so the reads of the thread are placed here.  [join]
    returns when the thread has ended, by its [break] or by its exception,
    which Python does not pass on to the joining thread. *)
Definition stop (self : Leela) : Leela :=
  let self := send ("stop" ++ line_end) self in
  snd (clear_buffer (S (String.length (stdout self))) self).

Section Driver.
Context `{ChessLib}.

Definition make_entry (board : Board) (move : Move) (weight learn : Z) : outcome Entry :=
  let key := zobrist_hash board in
  raw_move <- move_to_polyglot_int board move ;;
  Ok {| key := key; raw_move := raw_move; weight := weight; learn := learn |}.

(** Lines 77-78: the body of the [try].  A failed [re.search] gives [None],
    whose [.groups] raises [AttributeError]. *)
Definition parse_line (line : string) : outcome (Move * Z) :=
  let text := py_str_bytes line in
  match re_search "move=" text with
  | None => Raise AttributeError
  | Some g =>
      match from_uci g with
      | None => Raise ValueError
      | Some move =>
          match re_search "n=" text with
          | None => Raise AttributeError
          | Some g' => visits <- py_int g' ;; Ok (move, visits)
          end
      end
  end.

(** The [while True] of [probe]. *)
Fixpoint probe_loop (fuel : nat) (children : dict) (self : Leela) : outcome dict * Leela :=
  match fuel with
  | O => (OutOfFuel, self)
  | S fuel' =>
      let (line, self') := readline self in
      if contains "end-dump" line then (Ok children, self')
      else match parse_line line with
           | Ok (move, visits) => probe_loop fuel' (dict_set children move visits) self'
           | Raise e => (Raise e, self')
           | OutOfFuel => (OutOfFuel, self')
           end
  end.

(** The text sent by [probe]. *)
Definition dumpnode_command (ucis : list string) : string :=
  ("dumpnode moves" ++ join (map (fun u => " " ++ u) ucis) ++ line_end)%string.

Definition probe (moves : list Move) (self : Leela) : outcome dict * Leela :=
  match mapM uci moves with
  | Ok ucis =>
      let self := send (dumpnode_command ucis) self in
      probe_loop (S (String.length (stdout self))) [] self
  | Raise e => (Raise e, self)
  | OutOfFuel => (OutOfFuel, self)
  end.

(** ** The traversal: [explore_tree] *)

Definition run : Type := outcome unit * Leela * list Entry.

(** The [for] loop of lines 95-101, [recurse] being [explore_tree] itself. *)
Fixpoint explore_children
    (recurse : Leela -> list Entry -> Board -> list Move -> Z -> run)
    (board : Board) (moves : list Move) (visit_threshold : Z)
    (items : list (Move * Z)) (leela : Leela) (entries : list Entry) : run :=
  match items with
  | [] => (Ok tt, leela, entries)
  | (move, visits) :: rest =>
      if visits <? visit_threshold
      then explore_children recurse board moves visit_threshold rest leela entries
      else
        let sub_board := board in
        if negb (is_legal sub_board move) then (Raise AssertionError, leela, entries)
        else
          let sub_board := push sub_board move in
          match recurse leela entries sub_board (moves ++ [move]) visit_threshold with
          | (Ok _, leela', entries') =>
              explore_children recurse board moves visit_threshold rest leela' entries'
          | failed => failed
          end
  end.

(** Lines 91 and 94: the entry of the best move of a probe result. *)
Definition best_entry (board : Board) (children : dict) : outcome Entry :=
  best_move <- py_max (getitem children) (dict_keys children) ;;
  visits <- getitem children best_move ;;
  make_entry board best_move (Z.min 0xffff (visits / 256)) 0.

(** [explore_tree]; [leela] and [entries] are the two objects it changes.
    Printing ([args.print_tree]) is left out. *)
Fixpoint explore_tree (fuel : nat) (leela : Leela) (entries : list Entry)
    (board : Board) (moves : list Move) (visit_threshold : Z) : run :=
  match fuel with
  | O => (OutOfFuel, leela, entries)
  | S fuel' =>
      match probe moves leela with
      | (Ok children, leela) =>
          match children with
          | [] => (Ok tt, leela, entries)
          | _ :: _ =>
              match best_entry board children with
              | Ok entry =>
                  explore_children (explore_tree fuel') board moves visit_threshold
                    children leela (entries ++ [entry])
              | Raise e => (Raise e, leela, entries)
              | OutOfFuel => (OutOfFuel, leela, entries)
              end
          end
      | (Raise e, leela) => (Raise e, leela, entries)
      | (OutOfFuel, leela) => (OutOfFuel, leela, entries)
      end
  end.

(** A budget that never runs out: every call of [explore_tree] probes once,
    and a probe that returns has read at least one line. *)
Definition enough_fuel (leela : Leela) : nat := S (String.length (stdout leela)).

(** ** The main program, lines 131-157 *)

Definition files : Type := list (string * list byte).

(** [open(name, "wb")] followed by writes that leave [content]. *)
Fixpoint fs_put (name : string) (content : list byte) (fs : files) : files :=
  match fs with
  | [] => [(name, content)]
  | (n, c) :: fs' =>
      if String.eqb n name then (n, content) :: fs' else (n, c) :: fs_put name content fs'
  end.

Definition multiwrite_name (output : string) (threshold : Z) : string :=
  (output ++ "-" ++ py_str_int threshold ++ "n.bin")%string.

(** The [while not donewriting] loop. *)
Fixpoint multiwrite_loop (fuel : nat) (output : string) (threshold : Z)
    (leela : Leela) (fs : files) : outcome unit * Leela * files :=
  match fuel with
  | O => (OutOfFuel, leela, fs)
  | S fuel' =>
      match explore_tree (enough_fuel leela) leela [] starting_board [] threshold with
      | (Ok _, leela, entries) =>
          if (2 <? List.length entries)%nat
          then match write_polyglot_bin [] entries with
               | (Ok _, f) =>
                   multiwrite_loop fuel' output (threshold * 2) leela
                     (fs_put (multiwrite_name output threshold) f fs)
               | (Raise e, f) =>
                   (Raise e, leela, fs_put (multiwrite_name output threshold) f fs)
               | (OutOfFuel, f) => (OutOfFuel, leela, fs)
               end
          else (Ok tt, leela, fs)
      | (Raise e, leela, _) => (Raise e, leela, fs)
      | (OutOfFuel, leela, _) => (OutOfFuel, leela, fs)
      end
  end.

(** The [if (args.multiwrite)] branch of one round of the main loop. *)
Definition multiwrite (output : string) (leela : Leela) (fs : files)
  : outcome unit * Leela * files :=
  multiwrite_loop (enough_fuel leela) output 256 leela fs.

(** The [else] branch: one traversal, one file. *)
Definition single_write (output : string) (visit_threshold : Z) (leela : Leela) (fs : files)
  : outcome unit * Leela * files :=
  match explore_tree (enough_fuel leela) leela [] starting_board [] visit_threshold with
  | (Ok _, leela, entries) =>
      match write_polyglot_bin [] entries with
      | (Ok _, f) => (Ok tt, leela, fs_put output f fs)
      | (Raise e, f) => (Raise e, leela, fs_put output f fs)
      | (OutOfFuel, f) => (OutOfFuel, leela, fs)
      end
  | (Raise e, leela, _) => (Raise e, leela, fs)
  | (OutOfFuel, leela, _) => (OutOfFuel, leela, fs)
  end.

End Driver.

(** * Notions used in the statements *)

Definition key_le (a b : Entry) : Prop := key a <= key b.
Definition has_key (k : Z) (e : Entry) : bool := key e =? k.

(** The sixteen bytes of a record, as the book format lays them out. *)
Definition record_bytes (e : Entry) : list byte :=
  be_bytes 8 (key e) ++ be_bytes 2 (raw_move e) ++ be_bytes 2 (weight e)
  ++ be_bytes 4 (learn e).

(** The lines a stream is read as, one per [readline()]. *)
Fixpoint lines_of (s : string) : list string :=
  match s with
  | EmptyString => []
  | String c s' =>
      if Ascii.eqb c newline then String c EmptyString :: lines_of s'
      else match lines_of s' with
           | [] => [String c EmptyString]
           | l :: ls => String c l :: ls
           end
  end.

(** A newline, if any, is the last character. *)
Fixpoint newline_only_last (s : string) : bool :=
  match s with
  | EmptyString => true
  | String c s' =>
      (negb (Ascii.eqb c newline) || match s' with EmptyString => true | _ => false end)
      && newline_only_last s'
  end.

Definition is_hex (c : ascii) : bool := has_char c "0123456789abcdef".
Definition plain_char (c : ascii) : bool :=
  negb (Ascii.eqb c backslash || Ascii.eqb c squote || Ascii.eqb c dquote).

Fixpoint all_plain (s : string) : bool :=
  match s with
  | EmptyString => true
  | String c s' => plain_char c && all_plain s'
  end.

(** Patterns that the repr of a line holds only where the line holds them:
    at least two characters, no quote and no backslash, and a first character
    that is neither the leading b nor a letter or digit of an escape other
    than the n of a newline. *)
Definition token_prefix_ok (pat : string) : bool :=
  match pat with
  | String p0 (String _ _) => all_plain pat && negb (has_char p0 "btrx0123456789abcdef")
  | _ => false
  end.

Definition sentinel (line : string) : bool := contains "end-dump" line.

(** A line without the text [move=] or without the text [n=]. *)
Definition lacks_token (line : string) : Prop :=
  contains "move=" line = false \/ contains "n=" line = false.

(** What the engine still writes holds a faulty line before any line with the
    end marker, or no line with the end marker at all. *)
Definition protocol_fault (s : string) : Prop :=
  (exists pre bad rest,
      lines_of s = pre ++ bad :: rest
      /\ Forall (fun l => sentinel l = false) pre
      /\ sentinel bad = false
      /\ lacks_token bad)
  \/ Forall (fun l => sentinel l = false) (lines_of s).

(** [entries] put before the entries of a run. *)
Definition with_prefix (entries : list Entry) (r : run) : run :=
  let '(o, leela, es) := r in (o, leela, entries ++ es).

Definition outcome_of (r : run) : outcome unit := fst (fst r).
Definition leela_of (r : run) : Leela := snd (fst r).

Definition frames (recurse : Leela -> list Entry -> Board -> list Move -> Z -> run) : Prop :=
  forall leela entries board moves th,
    recurse leela entries board moves th
    = with_prefix entries (recurse leela [] board moves th).

Definition run_total (bound : nat) (r : run) : Prop :=
  outcome_of r <> OutOfFuel
  /\ (String.length (stdout (leela_of r)) <= bound)%nat.

(** The dictionary that assignments [children[move] = visits] build, in the
    order of the pairs. *)
Definition build_dict (pairs : list (Move * Z)) (children : dict) : dict :=
  fold_left (fun d p => dict_set d (fst p) (snd p)) pairs children.

(** The visits of the last pair for [move], if any. *)
Fixpoint last_visits (pairs : list (Move * Z)) (move : Move) : option Z :=
  match pairs with
  | [] => None
  | (m, v) :: rest =>
      match last_visits rest move with
      | Some v' => Some v'
      | None => if Move_eqb move m then Some v else None
      end
  end.

(** The content of a file, if it exists. *)
Fixpoint fs_get (name : string) (fs : list (string * list byte)) : option (list byte) :=
  match fs with
  | [] => None
  | (n, c) :: fs' => if String.eqb n name then Some c else fs_get name fs'
  end.

(** The characters an integer text may hold. *)
Definition int_char (c : ascii) : bool := has_char c "+-_0123456789".

Fixpoint all_chars (p : ascii -> bool) (s : string) : bool :=
  match s with
  | EmptyString => true
  | String c s' => p c && all_chars p s'
  end.

Section Notions.
Context `{ChessLib}.

(** The key of [e] is the hash of a position reached from [board]. *)
Definition reached_from (board : Board) (e : Entry) : Prop :=
  exists path, key e = zobrist_hash (fold_left push path board).

(** The traversal of the given child moves, one after the other, as the
    specification words it: each move is applied to a copy of the position
    and explored with the path extended by it. *)
Fixpoint recurse_into
    (recurse : Leela -> list Entry -> Board -> list Move -> Z -> run)
    (board : Board) (moves : list Move) (visit_threshold : Z)
    (children : list Move) (leela : Leela) (entries : list Entry) : run :=
  match children with
  | [] => (Ok tt, leela, entries)
  | move :: rest =>
      if is_legal board move
      then match recurse leela entries (push board move) (moves ++ [move]) visit_threshold with
           | (Ok _, leela', entries') =>
               recurse_into recurse board moves visit_threshold rest leela' entries'
           | failed => failed
           end
      else (Raise AssertionError, leela, entries)
  end.

(** One traversal from the initial position with a fresh list of entries. *)
Definition traversal (threshold : Z) (leela : Leela) : run :=
  explore_tree (enough_fuel leela) leela [] starting_board [] threshold.

(** The rounds of the multiwrite mode as the specification words them, from
    round [i] on: round [i] traverses with threshold [256 * 2 ^ i]; with more
    than two entries the book is written under the name of that threshold
    and the next round follows; with at most two nothing is written and the
    rounds end.  An exception ends them as well. *)
Inductive multiwrite_rounds (output : string) :
    nat -> Leela -> files -> outcome unit * Leela * files -> Prop :=
| rounds_stop i leela fs leela' entries :
    traversal (256 * 2 ^ Z.of_nat i) leela = (Ok tt, leela', entries) ->
    (List.length entries <= 2)%nat ->
    multiwrite_rounds output i leela fs (Ok tt, leela', fs)
| rounds_write i leela fs leela' entries f res :
    traversal (256 * 2 ^ Z.of_nat i) leela = (Ok tt, leela', entries) ->
    (2 < List.length entries)%nat ->
    write_polyglot_bin [] entries = (Ok tt, f) ->
    multiwrite_rounds output (S i) leela'
      (fs_put (output ++ "-" ++ py_str_int (256 * 2 ^ Z.of_nat i) ++ "n.bin") f fs) res ->
    multiwrite_rounds output i leela fs res
| rounds_traversal_raises i leela fs e leela' entries :
    traversal (256 * 2 ^ Z.of_nat i) leela = (Raise e, leela', entries) ->
    multiwrite_rounds output i leela fs (Raise e, leela', fs)
| rounds_write_raises i leela fs leela' entries e f :
    traversal (256 * 2 ^ Z.of_nat i) leela = (Ok tt, leela', entries) ->
    (2 < List.length entries)%nat ->
    write_polyglot_bin [] entries = (Raise e, f) ->
    multiwrite_rounds output i leela fs
      (Raise e, leela',
       fs_put (output ++ "-" ++ py_str_int (256 * 2 ^ Z.of_nat i) ++ "n.bin") f fs).

End Notions.

(** ** A chess library to run the model on

    [from_uci] follows python-chess; the hash, the legality test and [push]
    are small stand-ins (the traversal only passes their results on). *)

Fixpoint index_of (s : string) (l : list string) (i : Z) : outcome Z :=
  match l with
  | [] => Raise ValueError
  | x :: l' => if String.eqb x s then Ok i else index_of s l' (i + 1)
  end.

Definition piece_of_symbol (s : string) : outcome PieceType :=
  if String.eqb s "p" then Ok PAWN
  else if String.eqb s "n" then Ok KNIGHT
  else if String.eqb s "b" then Ok BISHOP
  else if String.eqb s "r" then Ok ROOK
  else if String.eqb s "q" then Ok QUEEN
  else if String.eqb s "k" then Ok KING
  else Raise ValueError.

Definition demo_from_uci (u : string) : option Move :=
  let parsed :=
    if String.eqb u "0000" then Ok (mkMove 0 0 None None)
    else if (4 <=? String.length u)%nat && (String.length u <=? 5)%nat
    then f <- index_of (substring 0 2 u) SQUARE_NAMES 0 ;;
         t <- index_of (substring 2 2 u) SQUARE_NAMES 0 ;;
         p <- (if (String.length u =? 5)%nat
               then q <- piece_of_symbol (substring 4 1 u) ;; Ok (Some q)
               else Ok None) ;;
         if f =? t then Raise ValueError else Ok (mkMove f t p None)
    else Raise ValueError in
  match parsed with
  | Ok m => Some m
  | _ => None
  end.

Definition demo_hash (b : Board) : Z :=
  Z.lxor (Z.lxor (occupied_white b) (Z.shiftl (occupied_black b) 1))
         (if turn b then 1 else 0) mod 2 ^ 64.

Definition demo_is_legal (b : Board) (m : Move) : bool :=
  Z.testbit (occupied_co b (turn b)) (from_square m).

Definition move_bit (bb from to : Z) : Z :=
  let cleared := Z.land (Z.ldiff bb (BB_SQUARE to)) (Z.lnot (BB_SQUARE from)) in
  if Z.testbit bb from then Z.lor cleared (BB_SQUARE to) else cleared.

Definition demo_push (b : Board) (m : Move) : Board :=
  let mv bb := move_bit bb (from_square m) (to_square m) in
  {| pawns := mv (pawns b); knights := mv (knights b); bishops := mv (bishops b);
     rooks := mv (rooks b); queens := mv (queens b); kings := mv (kings b);
     occupied_white := mv (occupied_white b); occupied_black := mv (occupied_black b);
     turn := negb (turn b); castling_rights := castling_rights b; ep_square := None |}.

Definition demo_chess : ChessLib := {|
  from_uci := demo_from_uci;
  zobrist_hash := demo_hash;
  is_legal := demo_is_legal;
  push := demo_push
|}.

(** Squares and moves used in the examples. *)
Definition A1 : Z := 0.
Definition E1 : Z := 4.
Definition G1 : Z := 6.
Definition H1 : Z := 7.
Definition C1sq : Z := 2.
Definition A8 : Z := 56.
Definition E8 : Z := 60.
Definition G8 : Z := 62.
Definition H8 : Z := 63.
Definition C8sq : Z := 58.

(** The position after 1. e4 e5 2. Nf3 Nc6 3. Bc4 Bc5, white to move: white
    may castle on the king's side with e1g1. *)
Definition italian_board : Board := {|
  pawns := bb_of [8; 9; 10; 11; 28; 13; 14; 15; 48; 49; 50; 51; 36; 53; 54; 55];
  knights := bb_of [1; 21; 42; 62];
  bishops := bb_of [2; 26; 34; 58];
  rooks := bb_of [0; 7; 56; 63];
  queens := bb_of [3; 59];
  kings := bb_of [4; 60];
  occupied_white := bb_of [0; 1; 2; 3; 4; 7; 8; 9; 10; 11; 13; 14; 15; 21; 26; 28];
  occupied_black := bb_of [56; 58; 59; 60; 62; 63; 48; 49; 50; 51; 53; 54; 55; 42; 34; 36];
  turn := true;
  castling_rights := bb_of [0; 7; 56; 63];
  ep_square := None
|}.

(** Kings and rooks on their first squares and nothing between them: every
    one of the four castling moves is legal for the side to move. *)
Definition castling_board (white_to_move : bool) : Board := {|
  pawns := 0; knights := 0; bishops := 0;
  rooks := bb_of [A1; H1; A8; H8];
  queens := 0;
  kings := bb_of [E1; E8];
  occupied_white := bb_of [A1; E1; H1];
  occupied_black := bb_of [A8; E8; H8];
  turn := white_to_move;
  castling_rights := bb_of [A1; H1; A8; H8];
  ep_square := None
|}.

Definition lines (ls : list string) : string :=
  join (map (fun l => (l ++ line_end)%string) ls).

Definition e2e4 : Move := mkMove 12 28 None None.
Definition d2d4 : Move := mkMove 11 27 None None.
Definition e7e5 : Move := mkMove 52 36 None None.
Definition g1f3 : Move := mkMove 6 21 None None.

(** The engine answers the probe of the root with two moves and the probe of
    the position after e2e4 with none. *)
Definition pruning_stream : string :=
  lines ["info string move=e2e4 n=1000 q=0.1"%string;
         "info string move=d2d4 n=5 q=0"%string;
         "end-dump"%string;
         "end-dump"%string].

Definition pruning_children : dict := [(e2e4, 1000); (d2d4, 5)].
Definition pruning_entry : Entry :=
  {| key := demo_hash starting_board; raw_move := 796; weight := 3; learn := 0 |}.

(** Two moves whose visit counts are the two boundary values of the weight. *)
Definition boundary_stream : string :=
  lines ["move=e2e4 n=16777215 "%string;
         "move=d2d4 n=16776960 "%string;
         "end-dump"%string].

Definition boundary_children : dict := [(e2e4, 16777215); (d2d4, 16776960)].

(** A line without [move=] before the end marker. *)
Definition faulty_stream : string :=
  lines ["info string move=e2e4 n=10 q=0"%string;
         "info string n=7 q=0"%string;
         "end-dump"%string].

(** Three rounds of the multiwrite mode. *)
Definition multiwrite_stream : string :=
  lines ["move=e2e4 n=1000 "%string; "end-dump"%string;
         "move=e7e5 n=600 "%string; "end-dump"%string;
         "move=g1f3 n=300 "%string; "end-dump"%string;
         "end-dump"%string;
         "move=e2e4 n=1000 "%string; "end-dump"%string;
         "move=e7e5 n=600 "%string; "end-dump"%string;
         "move=g1f3 n=300 "%string; "end-dump"%string;
         "move=e2e4 n=1000 "%string; "end-dump"%string].

Definition demo_entries : list Entry :=
  [mkEntry 7 796 3 0; mkEntry 2 262 65535 0; mkEntry 7 1 0 0].

(** Engine outputs for the further properties. *)
Definition search_stream : string :=
  lines ["info depth 1 score cp 20 pv e2e4"%string;
         "bestmove e2e4"%string;
         "move=e2e4 n=1000 "%string;
         "end-dump"%string].

Definition dead_stream : string :=
  lines ["info depth 1 score cp 20 pv e2e4"%string].

Definition repeated_stream : string :=
  lines ["move=e2e4 n=1000 "%string;
         "move=d2d4 n=5 "%string;
         "move=e2e4 n=700 "%string;
         "end-dump move=g1f3 n=9 "%string;
         "move=e7e5 n=3 "%string].

Definition illegal_stream : string :=
  lines ["move=e7e5 n=1000 "%string; "end-dump"%string].

(** * Properties *)

(** ** The move code *)

Lemma bits_above (a n : Z) : 0 <= n -> 0 <= a < 2 ^ n ->
  forall i, n <= i -> Z.testbit a i = false.
Proof.
  intros Hn [Ha Hlt] i Hi.
  destruct (Z.eq_dec a 0) as [->|Hne]; [apply Z.bits_0|].
  apply Z.bits_above_log2; [lia|].
  apply Z.lt_le_trans with n; [|lia].
  apply Z.log2_lt_pow2; lia.
Qed.

Lemma lor_shiftl_add (a b n : Z) : 0 <= n -> 0 <= a < 2 ^ n ->
  Z.lor a (Z.shiftl b n) = a + b * 2 ^ n.
Proof.
  intros Hn Ha.
  rewrite <- Z.shiftl_mul_pow2 by lia.
  assert (Hdisj : Z.land a (Z.shiftl b n) = 0).
  { apply Z.bits_inj'. intros i Hi. rewrite Z.land_spec, Z.bits_0.
    destruct (Z.lt_ge_cases i n).
    - rewrite Z.shiftl_spec_low by lia. apply andb_false_r.
    - rewrite (bits_above a n) by lia. reflexivity. }
  rewrite <- Z.lxor_lor by exact Hdisj.
  symmetry. apply Z.add_nocarry_lxor. exact Hdisj.
Qed.

Lemma polyglot_int_sum (t f p : Z) : 0 <= t < 64 -> 0 <= f < 64 ->
  Z.lor (Z.lor t (Z.shiftl f 6)) (Z.shiftl p 12) = t + 64 * f + 4096 * p.
Proof.
  intros Ht Hf.
  rewrite (lor_shiftl_add t f 6); [|lia|change (2 ^ 6) with 64; lia].
  rewrite (lor_shiftl_add (t + f * 2 ^ 6) p 12);
    [|lia|change (2 ^ 6) with 64; change (2 ^ 12) with 4096; lia].
  change (2 ^ 6) with 64; change (2 ^ 12) with 4096. lia.
Qed.

Lemma promotion_code_legal (p : option PieceType) : legal_promotion p ->
  exists c, promotion_code p = Ok c /\ 0 <= c <= 4.
Proof.
  intros [Hp Hk]. destruct p as [[]|]; cbn; try congruence;
    eexists; (split; [reflexivity|lia]).
Qed.

(** For a well-formed move the code is the sum of its three fields, each in
    its own bits. *)
Lemma move_to_polyglot_int_fields (board : Board) (move : Move) :
  move_wf move ->
  exists code p,
    move_to_polyglot_int board move = Ok code
    /\ promotion_code (promotion move) = Ok p
    /\ code_to_square code = to_square move
    /\ code_from_square code = from_square move
    /\ code_promotion code = p
    /\ 0 <= code < 2 ^ 16.
Proof.
  intros (Hf & Ht & Hp).
  destruct (promotion_code_legal _ Hp) as (p & Hpc & Hpr).
  unfold is_square in *.
  exists (to_square move + 64 * from_square move + 4096 * p), p.
  unfold move_to_polyglot_int. rewrite Hpc. cbn [bind].
  rewrite polyglot_int_sum by assumption.
  unfold code_to_square, code_from_square, code_promotion.
  change 63 with (Z.ones 6). change 7 with (Z.ones 3).
  rewrite !Z.land_ones, !Z.shiftr_div_pow2 by lia.
  change (2 ^ 6) with 64. change (2 ^ 12) with 4096.
  change (2 ^ 3) with 8. change (2 ^ 16) with 65536.
  repeat split; try reflexivity; try assumption;
    Z.div_mod_to_equations; lia.
Qed.

(** C8: for a legal move that is not a castling move the code is defined,
    holds the destination square in bits 0-5, the origin square in bits 6-11
    and the promotion code (0 none, 1 knight, 2 bishop, 3 rook, 4 queen) in
    bits 12-14, and fits in sixteen bits. *)
Theorem move_to_polyglot_int_packs_fields (board : Board) (move : Move) :
  move_wf move ->
  is_castling board move = false ->
  exists code,
    move_to_polyglot_int board move = Ok code
    /\ Z.land code 63 = to_square move
    /\ Z.land (Z.shiftr code 6) 63 = from_square move
    /\ (promotion move = None -> Z.land (Z.shiftr code 12) 7 = 0)
    /\ (promotion move = Some KNIGHT -> Z.land (Z.shiftr code 12) 7 = 1)
    /\ (promotion move = Some BISHOP -> Z.land (Z.shiftr code 12) 7 = 2)
    /\ (promotion move = Some ROOK -> Z.land (Z.shiftr code 12) 7 = 3)
    /\ (promotion move = Some QUEEN -> Z.land (Z.shiftr code 12) 7 = 4)
    /\ 0 <= code < 2 ^ 16.
Proof.
  intros Hwf _.
  destruct (move_to_polyglot_int_fields board move Hwf)
    as (code & p & Hcode & Hp & Hto & Hfrom & Hprom & Hrange).
  exists code.
  unfold code_to_square, code_from_square, code_promotion in *.
  repeat split; try assumption; try lia;
    intros Heq; rewrite Heq in Hp; cbn in Hp; congruence.
Qed.

Lemma move_to_polyglot_int_packs_fields_witness :
  exists code,
    move_to_polyglot_int starting_board (mkMove 12 28 None None) = Ok code
    /\ Z.land code 63 = 28
    /\ Z.land (Z.shiftr code 6) 63 = 12
    /\ ((None : option PieceType) = None -> Z.land (Z.shiftr code 12) 7 = 0)
    /\ (None = Some KNIGHT -> Z.land (Z.shiftr code 12) 7 = 1)
    /\ (None = Some BISHOP -> Z.land (Z.shiftr code 12) 7 = 2)
    /\ (None = Some ROOK -> Z.land (Z.shiftr code 12) 7 = 3)
    /\ (None = Some QUEEN -> Z.land (Z.shiftr code 12) 7 = 4)
    /\ 0 <= code < 2 ^ 16.
Proof.
  apply (move_to_polyglot_int_packs_fields starting_board (mkMove 12 28 None None)).
  - unfold move_wf, is_square, legal_promotion; cbn. repeat split; (lia || congruence).
  - reflexivity.
Defined.

(** C1: the code of a castling move.  The function never looks at the board:
    the destination field of the code is the king's landing square of the
    move it is given, for white and black and on either side, where the
    specification and the comment of lines 11-13 ask for the rook's square
    (h1, a1, h8, a8). *)
Theorem castling_code_has_king_landing_square :
  (is_castling italian_board (mkMove E1 G1 None None) = true
   /\ castling_rook_square italian_board (mkMove E1 G1 None None) = H1
   /\ move_to_polyglot_int italian_board (mkMove E1 G1 None None) = Ok 262
   /\ code_from_square 262 = E1 /\ code_to_square 262 = G1 /\ G1 <> H1)
  /\ (is_castling (castling_board true) (mkMove E1 C1sq None None) = true
      /\ castling_rook_square (castling_board true) (mkMove E1 C1sq None None) = A1
      /\ move_to_polyglot_int (castling_board true) (mkMove E1 C1sq None None) = Ok 258
      /\ code_from_square 258 = E1 /\ code_to_square 258 = C1sq /\ C1sq <> A1)
  /\ (is_castling (castling_board false) (mkMove E8 G8 None None) = true
      /\ castling_rook_square (castling_board false) (mkMove E8 G8 None None) = H8
      /\ move_to_polyglot_int (castling_board false) (mkMove E8 G8 None None) = Ok 3902
      /\ code_from_square 3902 = E8 /\ code_to_square 3902 = G8 /\ G8 <> H8)
  /\ (is_castling (castling_board false) (mkMove E8 C8sq None None) = true
      /\ castling_rook_square (castling_board false) (mkMove E8 C8sq None None) = A8
      /\ move_to_polyglot_int (castling_board false) (mkMove E8 C8sq None None) = Ok 3898
      /\ code_from_square 3898 = E8 /\ code_to_square 3898 = C8sq /\ C8sq <> A8).
Proof.
  repeat split; try reflexivity; discriminate.
Qed.

(** ** Sorting and the record layout *)

Lemma insert_by_key_perm (e : Entry) (l : list Entry) :
  Permutation (insert_by_key e l) (e :: l).
Proof.
  induction l as [|x l IH]; cbn; [reflexivity|].
  destruct (key e <=? key x); [reflexivity|].
  rewrite IH. apply perm_swap.
Qed.

Lemma sorted_by_key_perm (l : list Entry) : Permutation (sorted_by_key l) l.
Proof.
  induction l as [|e l IH]; cbn; [constructor|].
  rewrite insert_by_key_perm. now constructor.
Qed.

Lemma insert_by_key_hd (e x : Entry) (l : list Entry) :
  key_le x e -> HdRel key_le x l -> HdRel key_le x (insert_by_key e l).
Proof.
  intros Hxe Hhd. destruct l as [|y l]; cbn; [now constructor|].
  destruct (key e <=? key y); constructor; [exact Hxe|].
  now inversion Hhd.
Qed.

Lemma insert_by_key_sorted (e : Entry) (l : list Entry) :
  Sorted key_le l -> Sorted key_le (insert_by_key e l).
Proof.
  induction 1 as [|x l Hs IH Hhd]; cbn; [repeat constructor|].
  destruct (key e <=? key x) eqn:Hle.
  - constructor; [now constructor|]. constructor. unfold key_le. lia.
  - constructor; [exact IH|]. apply insert_by_key_hd; [unfold key_le; lia|exact Hhd].
Qed.

Lemma sorted_by_key_sorted (l : list Entry) : Sorted key_le (sorted_by_key l).
Proof.
  induction l as [|e l IH]; cbn; [constructor|now apply insert_by_key_sorted].
Qed.

Lemma insert_by_key_filter (k : Z) (e : Entry) (l : list Entry) :
  filter (has_key k) (insert_by_key e l) = filter (has_key k) (e :: l).
Proof.
  induction l as [|x l IH]; [reflexivity|].
  cbn [insert_by_key]. destruct (key e <=? key x) eqn:Hle; [reflexivity|].
  cbn [filter] in *. rewrite IH. unfold has_key.
  destruct (key e =? k) eqn:He, (key x =? k) eqn:Hx; try reflexivity. lia.
Qed.

(** The sort is stable: the entries of one key keep the order they came in. *)
Lemma sorted_by_key_stable (k : Z) (l : list Entry) :
  filter (has_key k) (sorted_by_key l) = filter (has_key k) l.
Proof.
  induction l as [|e l IH]; [reflexivity|].
  cbn [sorted_by_key fold_right]. rewrite insert_by_key_filter.
  cbn [filter]. fold (sorted_by_key l). now rewrite IH.
Qed.

Lemma sorted_keys (l : list Entry) : Sorted key_le l -> Sorted Z.le (map key l).
Proof.
  induction 1 as [|x l Hs IH Hhd]; cbn; constructor; [exact IH|].
  destruct Hhd; cbn; constructor. assumption.
Qed.

Lemma Z_of_byte_of_Z (v : Z) : Z_of_byte (byte_of_Z v) = v mod 256.
Proof.
  unfold Z_of_byte, byte_of_Z.
  assert (Hr : 0 <= v mod 256 < 256) by (apply Z.mod_pos_bound; lia).
  destruct (Byte.of_N (Z.to_N (v mod 256))) as [b|] eqn:Hb.
  - apply Byte.to_of_N in Hb. rewrite Hb. lia.
  - apply Byte.of_N_None_iff in Hb. lia.
Qed.

Lemma be_bytes_length (n : nat) (v : Z) : List.length (be_bytes n v) = n.
Proof. induction n; cbn; congruence. Qed.

Lemma be_value_acc (n : nat) (v acc : Z) :
  fold_left (fun a b => a * 256 + Z_of_byte b) (be_bytes n v) acc
  = acc * 256 ^ Z.of_nat n + v mod 256 ^ Z.of_nat n.
Proof.
  revert acc. induction n as [|n IH]; intros acc.
  - cbn. rewrite Z.mod_1_r. lia.
  - cbn [be_bytes fold_left]. rewrite IH, Z_of_byte_of_Z.
    rewrite Z.shiftr_div_pow2 by lia.
    rewrite Nat2Z.inj_succ, Z.pow_succ_r by lia.
    replace (2 ^ (8 * Z.of_nat n)) with (256 ^ Z.of_nat n)
      by (change 256 with (2 ^ 8); rewrite <- Z.pow_mul_r by lia; reflexivity).
    set (P := 256 ^ Z.of_nat n).
    assert (HP : 0 < P) by (apply Z.pow_pos_nonneg; lia).
    rewrite (Z.mul_comm 256 P).
    rewrite (Z.rem_mul_r v P 256) by lia.
    lia.
Qed.

Lemma be_value_be_bytes (n : nat) (v : Z) :
  0 <= v < 256 ^ Z.of_nat n -> be_value (be_bytes n v) = v.
Proof.
  intros Hv. unfold be_value. rewrite be_value_acc.
  rewrite Z.mod_small by exact Hv. lia.
Qed.

Lemma fits_range (bits v : Z) : fits bits v = true -> 0 <= v < 2 ^ bits.
Proof. unfold fits. intros Hf. apply andb_true_iff in Hf. lia. Qed.

Lemma record_bytes_length (e : Entry) : List.length (record_bytes e) = 16%nat.
Proof.
  unfold record_bytes. rewrite !length_app, !be_bytes_length. reflexivity.
Qed.

Lemma firstn_app_exact {A : Type} (n : nat) (l l' : list A) :
  List.length l = n -> firstn n (l ++ l') = l.
Proof.
  intros <-. rewrite firstn_app, Nat.sub_diag, firstn_all. cbn. apply app_nil_r.
Qed.

Lemma skipn_app_exact {A : Type} (n : nat) (l l' : list A) :
  List.length l = n -> skipn n (l ++ l') = l'.
Proof.
  intros <-. rewrite skipn_app, Nat.sub_diag, skipn_all. reflexivity.
Qed.

Lemma unpack_entry_fields (a b c d : list byte) :
  List.length a = 8%nat -> List.length b = 2%nat ->
  List.length c = 2%nat -> List.length d = 4%nat ->
  unpack_entry (a ++ b ++ c ++ d)
  = {| key := be_value a; raw_move := be_value b;
       weight := be_value c; learn := be_value d |}.
Proof.
  intros Ha Hb Hc Hd. unfold unpack_entry.
  rewrite (firstn_app_exact 8 a) by exact Ha.
  rewrite (skipn_app_exact 8 a) by exact Ha.
  rewrite (firstn_app_exact 2 b) by exact Hb.
  replace (skipn 10 (a ++ b ++ c ++ d)) with (c ++ d).
  2:{ rewrite app_assoc. symmetry. apply skipn_app_exact.
      rewrite length_app, Ha, Hb. reflexivity. }
  rewrite (firstn_app_exact 2 c) by exact Hc.
  replace (skipn 12 (a ++ b ++ c ++ d)) with d.
  2:{ rewrite 2!app_assoc. symmetry. apply skipn_app_exact.
      rewrite !length_app, Ha, Hb, Hc. reflexivity. }
  rewrite firstn_all2 by lia. reflexivity.
Qed.

Lemma entry_in_range_fields (e : Entry) :
  entry_in_range e = true ->
  0 <= key e < 2 ^ 64 /\ 0 <= raw_move e < 2 ^ 16
  /\ 0 <= weight e < 2 ^ 16 /\ 0 <= learn e < 2 ^ 32.
Proof.
  unfold entry_in_range. intros Hr.
  apply andb_true_iff in Hr. destruct Hr as [Hr Hl].
  apply andb_true_iff in Hr. destruct Hr as [Hr Hw].
  apply andb_true_iff in Hr. destruct Hr as [Hk Hm].
  repeat split; eapply fits_range; eassumption.
Qed.

Lemma unpack_record_bytes (e : Entry) :
  entry_in_range e = true -> unpack_entry (record_bytes e) = e.
Proof.
  intros Hr. apply entry_in_range_fields in Hr.
  destruct Hr as (Hk & Hm & Hw & Hl).
  unfold record_bytes.
  rewrite unpack_entry_fields by apply be_bytes_length.
  rewrite !be_value_be_bytes by assumption.
  destruct e; reflexivity.
Qed.

Lemma write_entries_ok (f : list byte) (es : list Entry) :
  Forall (fun e => entry_in_range e = true) es ->
  write_entries f es = (Ok tt, f ++ flat_map record_bytes es).
Proof.
  intros Hall. revert f. induction Hall as [|e es He _ IH]; intros f; cbn.
  - now rewrite app_nil_r.
  - unfold pack_entry. rewrite He. rewrite IH. fold (record_bytes e).
    now rewrite <- app_assoc.
Qed.

Lemma flat_map_record_bytes_length (es : list Entry) :
  List.length (flat_map record_bytes es) = (16 * List.length es)%nat.
Proof.
  induction es as [|e es IH]; [reflexivity|].
  cbn [flat_map]. rewrite length_app, record_bytes_length, IH. cbn [List.length]. lia.
Qed.

Lemma read_entries_flat_map (es : list Entry) :
  Forall (fun e => entry_in_range e = true) es ->
  read_entries (List.length es) (flat_map record_bytes es) = es.
Proof.
  induction 1 as [|e es He _ IH]; [reflexivity|].
  cbn [List.length read_entries flat_map].
  rewrite firstn_app_exact, skipn_app_exact by apply record_bytes_length.
  now rewrite unpack_record_bytes, IH.
Qed.

Lemma read_polyglot_bin_flat_map (es : list Entry) :
  Forall (fun e => entry_in_range e = true) es ->
  read_polyglot_bin (flat_map record_bytes es) = es.
Proof.
  intros Hall. unfold read_polyglot_bin.
  rewrite flat_map_record_bytes_length.
  rewrite Nat.mul_comm, Nat.div_mul by lia.
  now apply read_entries_flat_map.
Qed.

(** C6: the records are written in ascending order of their keys, by a stable
    sort; each is sixteen bytes, the key in eight bytes, the move code in two,
    the weight in two and the learn tag in four, big-endian, with nothing
    before, between or after them; read back, the keys never decrease. *)
Theorem write_polyglot_bin_sorted_records (f : list byte) (entries : list Entry) :
  Forall (fun e => entry_in_range e = true) entries ->
  Permutation (sorted_by_key entries) entries
  /\ Sorted key_le (sorted_by_key entries)
  /\ (forall k, filter (has_key k) (sorted_by_key entries) = filter (has_key k) entries)
  /\ write_polyglot_bin f entries
     = (Ok tt, f ++ flat_map record_bytes (sorted_by_key entries))
  /\ (forall e, List.length (record_bytes e) = 16%nat)
  /\ (forall e, entry_in_range e = true ->
        be_value (firstn 8 (record_bytes e)) = key e
        /\ be_value (firstn 2 (skipn 8 (record_bytes e))) = raw_move e
        /\ be_value (firstn 2 (skipn 10 (record_bytes e))) = weight e
        /\ be_value (firstn 4 (skipn 12 (record_bytes e))) = learn e)
  /\ read_polyglot_bin (flat_map record_bytes (sorted_by_key entries))
     = sorted_by_key entries
  /\ Sorted Z.le
       (map key (read_polyglot_bin (flat_map record_bytes (sorted_by_key entries)))).
Proof.
  intros Hall.
  assert (Hsorted : Forall (fun e => entry_in_range e = true) (sorted_by_key entries)).
  { rewrite Forall_forall in *. intros e He. apply Hall.
    eapply Permutation_in; [apply sorted_by_key_perm|exact He]. }
  split; [apply sorted_by_key_perm|].
  split; [apply sorted_by_key_sorted|].
  split; [intros k; apply sorted_by_key_stable|].
  split; [unfold write_polyglot_bin; now apply write_entries_ok|].
  split; [apply record_bytes_length|].
  split.
  { intros e He. pose proof (unpack_record_bytes e He) as Hu.
    unfold unpack_entry in Hu. destruct e as [k m w l]. cbn [key raw_move weight learn].
    injection Hu as Hk Hm Hw Hl. repeat split; assumption. }
  rewrite read_polyglot_bin_flat_map by exact Hsorted.
  split; [reflexivity|]. apply sorted_keys, sorted_by_key_sorted.
Qed.

Lemma write_polyglot_bin_sorted_records_witness :
  Forall (fun e => entry_in_range e = true) demo_entries
  /\ sorted_by_key demo_entries = [mkEntry 2 262 65535 0; mkEntry 7 796 3 0; mkEntry 7 1 0 0]
  /\ write_polyglot_bin [] demo_entries
     = (Ok tt, [] ++ flat_map record_bytes (sorted_by_key demo_entries)).
Proof.
  assert (Hall : Forall (fun e => entry_in_range e = true) demo_entries)
    by (repeat constructor).
  split; [exact Hall|]. split; [reflexivity|].
  exact (proj1 (proj2 (proj2 (proj2
    (write_polyglot_bin_sorted_records [] demo_entries Hall))))).
Defined.

(** ** Lines and tokens *)

Lemma split_line_fst_snd (s : string) :
  s <> EmptyString ->
  lines_of s = fst (split_line s) :: lines_of (snd (split_line s))
  /\ (String.length (snd (split_line s)) < String.length s)%nat.
Proof.
  induction s as [|c s IH]; [congruence|]. intros _.
  cbn [split_line lines_of]. destruct (Ascii.eqb c newline).
  - cbn. split; [reflexivity|lia].
  - destruct s as [|d s'].
    + cbn. split; [reflexivity|lia].
    + destruct IH as [IH1 IH2]; [congruence|].
      destruct (split_line (String d s')) as [l r]. cbn [fst snd] in *.
      rewrite IH1. cbn [String.length] in *. split; [reflexivity|lia].
Qed.

Lemma split_line_shape (s : string) : newline_only_last (fst (split_line s)) = true.
Proof.
  induction s as [|c s IH]; [reflexivity|].
  cbn [split_line]. destruct (Ascii.eqb c newline) eqn:Hc.
  - cbn. now rewrite Hc.
  - destruct (split_line s) as [l r]. cbn [fst] in *.
    cbn [newline_only_last]. rewrite Hc, IH. reflexivity.
Qed.

Lemma starts_with_cons (a b : ascii) (p s : string) :
  starts_with (String a p) (String b s) = true -> a = b /\ starts_with p s = true.
Proof.
  cbn. intros Hs. apply andb_true_iff in Hs. destruct Hs as [Hab Hs].
  apply Ascii.eqb_eq in Hab. now split.
Qed.

Lemma contains_cons (pat : string) (c : ascii) (s : string) :
  contains pat (String c s) = starts_with pat (String c s) || contains pat s.
Proof. reflexivity. Qed.

Lemma is_hex_escape (c : ascii) :
  is_hex c = true -> has_char c "btrx0123456789abcdef" = true.
Proof.
  unfold is_hex. intros Hc. cbn [has_char] in *. rewrite Hc.
  now rewrite !orb_true_r.
Qed.

Lemma repr_byte_cases (q c : ascii) :
  q = squote \/ q = dquote ->
  (repr_byte q c = String c EmptyString /\ c <> newline)
  \/ (exists x, repr_byte q c = String backslash (String x EmptyString)
        /\ ((x = "n"%char /\ c = newline)
            \/ x = q \/ x = backslash \/ x = "t"%char \/ x = "r"%char))
  \/ (exists h1 h2,
        repr_byte q c = String backslash (String "x" (String h1 (String h2 EmptyString)))
        /\ is_hex h1 = true /\ is_hex h2 = true).
Proof.
  intros [-> | ->]; destruct c as [[] [] [] [] [] [] [] []];
    first
      [ left; repeat split; (reflexivity || discriminate)
      | right; left; eexists; split; [reflexivity|];
        first [ left; split; reflexivity
              | right; left; reflexivity
              | right; right; left; reflexivity
              | right; right; right; left; reflexivity
              | right; right; right; right; reflexivity ]
      | right; right; do 2 eexists; repeat split; reflexivity ].
Qed.

Lemma plain_char_neq (c q : ascii) :
  plain_char c = true -> q = squote \/ q = dquote -> c <> backslash /\ c <> q.
Proof.
  unfold plain_char. intros Hp Hq.
  apply negb_true_iff in Hp. apply orb_false_iff in Hp. destruct Hp as [Hp Hd].
  apply orb_false_iff in Hp. destruct Hp as [Hb Hs].
  apply Ascii.eqb_neq in Hb, Hs, Hd. destruct Hq; subst; now split.
Qed.

(** A plain character at the start of the quoted bytes is a byte itself. *)
Lemma starts_with_repr_body_cons (q p0 : ascii) (pat b : string) :
  q = squote \/ q = dquote -> plain_char p0 = true ->
  starts_with (String p0 pat) (repr_body q b) = true ->
  exists b', b = String p0 b' /\ starts_with pat (repr_body q b') = true.
Proof.
  intros Hq Hp Hs. destruct (plain_char_neq p0 q Hp Hq) as [Hnb Hnq].
  destruct b as [|c b'].
  - cbn in Hs. apply andb_true_iff in Hs. destruct Hs as [Hs _].
    apply Ascii.eqb_eq in Hs. contradiction.
  - cbn [repr_body] in Hs.
    destruct (repr_byte_cases q c Hq) as [[Hr _]|[(x & Hr & _)|(h1 & h2 & Hr & _)]];
      rewrite Hr in Hs; cbn [append] in Hs;
      apply starts_with_cons in Hs; destruct Hs as [Heq Hs]; try contradiction.
    subst c. now exists b'.
Qed.

Lemma starts_with_repr_body (q : ascii) (pat b : string) :
  q = squote \/ q = dquote -> all_plain pat = true ->
  starts_with pat (repr_body q b) = true -> starts_with pat b = true.
Proof.
  intros Hq. revert b. induction pat as [|p0 pat IH]; intros b Hp Hs; [reflexivity|].
  cbn [all_plain] in Hp. apply andb_true_iff in Hp. destruct Hp as [Hp0 Hp].
  destruct (starts_with_repr_body_cons q p0 pat b Hq Hp0 Hs) as (b' & -> & Hs').
  cbn. rewrite Ascii.eqb_refl. cbn. now apply IH.
Qed.

Lemma token_prefix_ok_inv (pat : string) :
  token_prefix_ok pat = true ->
  exists p0 p1 rest,
    pat = String p0 (String p1 rest)
    /\ all_plain pat = true /\ plain_char p0 = true /\ plain_char p1 = true
    /\ has_char p0 "btrx0123456789abcdef" = false.
Proof.
  destruct pat as [|p0 [|p1 rest]]; try discriminate.
  unfold token_prefix_ok. intros Hok.
  apply andb_true_iff in Hok. destruct Hok as [Hall Hno].
  apply negb_true_iff in Hno.
  exists p0, p1, rest. repeat split; try assumption.
  - cbn [all_plain] in Hall. now apply andb_true_iff in Hall.
  - cbn [all_plain] in Hall. apply andb_true_iff in Hall. destruct Hall as [_ Hall].
    now apply andb_true_iff in Hall.
Qed.

Lemma has_char_false_neq (c d : ascii) (s : string) :
  has_char c s = false -> has_char d s = true -> c <> d.
Proof. intros Hc Hd ->. congruence. Qed.

(** The quoted bytes hold a token prefix only where the line holds it. *)
Lemma contains_repr_body (q : ascii) (pat b : string) :
  q = squote \/ q = dquote -> token_prefix_ok pat = true ->
  newline_only_last b = true ->
  contains pat (repr_body q b) = true -> contains pat b = true.
Proof.
  intros Hq Hok.
  destruct (token_prefix_ok_inv pat Hok) as (p0 & p1 & rest & Hpat & Hall & Hp0 & Hp1 & Hesc).
  destruct (plain_char_neq p0 q Hp0 Hq) as [Hnb Hnq].
  assert (Hnt : p0 <> "t"%char) by (apply (has_char_false_neq _ _ _ Hesc); reflexivity).
  assert (Hnr : p0 <> "r"%char) by (apply (has_char_false_neq _ _ _ Hesc); reflexivity).
  assert (Hnx : p0 <> "x"%char) by (apply (has_char_false_neq _ _ _ Hesc); reflexivity).
  induction b as [|c b IH]; intros Hline Hc.
  - subst pat. cbn in Hc. rewrite andb_false_r in Hc. discriminate.
  - assert (Hline' : newline_only_last b = true)
      by (cbn [newline_only_last] in Hline; now apply andb_true_iff in Hline).
    rewrite contains_cons.
    cbn [repr_body] in Hc.
    destruct (repr_byte_cases q c Hq) as [[Hr Hnl]|[(x & Hr & Hx)|(h1 & h2 & Hr & Hh1 & Hh2)]].
    + rewrite Hr in Hc. cbn [append] in Hc. rewrite contains_cons in Hc.
      apply orb_true_iff in Hc. destruct Hc as [Hc|Hc].
      * replace (String c (repr_body q b)) with (repr_body q (String c b)) in Hc
          by (cbn [repr_body]; now rewrite Hr).
        rewrite (starts_with_repr_body q pat (String c b) Hq Hall Hc). reflexivity.
      * rewrite (IH Hline' Hc). apply orb_true_r.
    + rewrite Hr in Hc. cbn [append] in Hc. rewrite !contains_cons in Hc.
      apply orb_true_iff in Hc. destruct Hc as [Hc|Hc].
      { subst pat. apply starts_with_cons in Hc. destruct Hc as [Hc _]. contradiction. }
      apply orb_true_iff in Hc. destruct Hc as [Hc|Hc].
      { subst pat. apply starts_with_cons in Hc. destruct Hc as [Hc Hs].
        destruct Hx as [[-> ->]|[->|[->|[->| ->]]]]; try contradiction.
        destruct (starts_with_repr_body_cons q p1 rest b Hq Hp1 Hs) as (b' & -> & _).
        cbn in Hline. discriminate. }
      rewrite (IH Hline' Hc). apply orb_true_r.
    + rewrite Hr in Hc. cbn [append] in Hc. rewrite !contains_cons in Hc.
      apply is_hex_escape in Hh1, Hh2.
      pose proof (has_char_false_neq _ _ _ Hesc Hh1) as Hn1.
      pose proof (has_char_false_neq _ _ _ Hesc Hh2) as Hn2.
      repeat (apply orb_true_iff in Hc; destruct Hc as [Hc|Hc];
              [subst pat; apply starts_with_cons in Hc; destruct Hc as [Hc _]; contradiction|]).
      rewrite (IH Hline' Hc). apply orb_true_r.
Qed.

Lemma contains_py_str_bytes (pat b : string) :
  token_prefix_ok pat = true -> newline_only_last b = true ->
  contains pat b = false -> contains pat (py_str_bytes b) = false.
Proof.
  intros Hok Hline Hno.
  destruct (contains pat (py_str_bytes b)) eqn:Hc; [|reflexivity].
  unfold py_str_bytes in Hc.
  set (q := if has_char squote b && negb (has_char dquote b) then dquote else squote) in Hc.
  assert (Hq : q = squote \/ q = dquote)
    by (subst q; destruct (has_char squote b && negb (has_char dquote b)); auto).
  destruct (token_prefix_ok_inv pat Hok) as (p0 & p1 & rest & Hpat & Hall & Hp0 & Hp1 & Hesc).
  destruct (plain_char_neq p0 q Hp0 Hq) as [Hnb Hnq].
  assert (Hb : p0 <> "b"%char) by (apply (has_char_false_neq _ _ _ Hesc); reflexivity).
  rewrite !contains_cons in Hc.
  apply orb_true_iff in Hc. destruct Hc as [Hc|Hc].
  { subst pat. apply starts_with_cons in Hc. destruct Hc as [Hc _]. contradiction. }
  apply orb_true_iff in Hc. destruct Hc as [Hc|Hc].
  { subst pat. apply starts_with_cons in Hc. destruct Hc as [Hc _]. contradiction. }
  rewrite (contains_repr_body q pat b Hq Hok Hline Hc) in Hno. discriminate.
Qed.

Lemma re_search_none (pfx s : string) :
  contains pfx s = false -> re_search pfx s = None.
Proof.
  induction s as [|c s IH]; intros Hno.
  - cbn in *. unfold match_here. now rewrite Hno.
  - rewrite contains_cons in Hno. apply orb_false_iff in Hno. destruct Hno as [Hs Hno].
    cbn [re_search]. unfold match_here. rewrite Hs. now apply IH.
Qed.

(** ** The probe *)

Section ProbeProperties.
Context `{ChessLib}.

Lemma py_int_returns (s : string) : py_int s <> OutOfFuel.
Proof.
  unfold py_int.
  destruct (match s with
            | String "-" s' => option_map Z.opp (digits_value 0 false s')
            | String "+" s' => digits_value 0 false s'
            | _ => digits_value 0 false s
            end); discriminate.
Qed.

Lemma parse_line_returns (line : string) : parse_line line <> OutOfFuel.
Proof.
  unfold parse_line.
  destruct (re_search "move=" (py_str_bytes line)); [|discriminate].
  destruct (from_uci s); [|discriminate].
  destruct (re_search "n=" (py_str_bytes line)) as [g|]; [|discriminate].
  pose proof (py_int_returns g). destruct (py_int g); cbn; congruence.
Qed.

Lemma parse_line_lacks_token (line : string) :
  newline_only_last line = true -> lacks_token line ->
  exists e, parse_line line = Raise e.
Proof.
  intros Hline Hlacks. unfold parse_line.
  destruct Hlacks as [Hm|Hn].
  - rewrite (re_search_none "move=" (py_str_bytes line)); [now eexists|].
    now apply contains_py_str_bytes.
  - destruct (re_search "move=" (py_str_bytes line)); [|now eexists].
    destruct (from_uci s); [|now eexists].
    rewrite (re_search_none "n=" (py_str_bytes line)); [now eexists|].
    now apply contains_py_str_bytes.
Qed.

(** With a budget above the length of the stream the loop ends by itself, it
    leaves [stdin] alone, and when it returns it has read something. *)
Lemma probe_loop_total (fuel : nat) (children : dict) (self : Leela) :
  (String.length (stdout self) < fuel)%nat ->
  exists r self',
    probe_loop fuel children self = (r, self')
    /\ r <> OutOfFuel
    /\ stdin self' = stdin self
    /\ (String.length (stdout self') <= String.length (stdout self))%nat
    /\ (forall d, r = Ok d -> (String.length (stdout self') < String.length (stdout self))%nat).
Proof.
  revert children self. induction fuel as [|fuel IH]; intros children self Hfuel; [lia|].
  cbn [probe_loop]. unfold readline.
  destruct (stdout self) as [|c s] eqn:Hout.
  - cbn. do 2 eexists. split; [reflexivity|].
    cbn. repeat split; try discriminate; auto.
  - destruct (split_line_fst_snd (String c s)) as [_ Hlen]; [discriminate|].
    destruct (split_line (String c s)) as [line rest]. cbn [fst snd] in Hlen.
    destruct (contains "end-dump" line).
    + do 2 eexists. split; [reflexivity|]. cbn [stdin stdout].
      repeat split; try discriminate; try lia.
    + pose proof (parse_line_returns line) as Hret.
      destruct (parse_line line) as [[move visits]|e|]; [| |congruence].
      * destruct (IH (dict_set children move visits) {| stdin := stdin self; stdout := rest |})
          as (r & self' & Heq & Hr & Hin & Hle & Hlt); [cbn; lia|].
        exists r, self'. cbn [stdin stdout] in *.
        repeat split; try assumption; try lia.
      * do 2 eexists. split; [reflexivity|]. cbn [stdin stdout].
        repeat split; try discriminate; try lia.
Qed.

Lemma probe_loop_fault (fuel : nat) (children : dict) (self : Leela) :
  (String.length (stdout self) < fuel)%nat ->
  protocol_fault (stdout self) ->
  exists e self', probe_loop fuel children self = (Raise e, self').
Proof.
  revert children self. induction fuel as [|fuel IH]; intros children self Hfuel Hfault; [lia|].
  cbn [probe_loop]. unfold readline.
  destruct (stdout self) as [|c s] eqn:Hout.
  - cbn. now do 2 eexists.
  - destruct (split_line_fst_snd (String c s)) as [Hlines Hlen]; [discriminate|].
    pose proof (split_line_shape (String c s)) as Hshape.
    destruct (split_line (String c s)) as [line rest]. cbn [fst snd] in *.
    assert (Hstep : sentinel line = false
                    /\ ((exists e, parse_line line = Raise e) \/ protocol_fault rest)).
    { destruct Hfault as [(pre & bad & rest' & Heq & Hpre & Hbad & Hlacks)|Hall].
      - rewrite Hlines in Heq. destruct pre as [|p pre].
        + cbn in Heq. injection Heq as -> _. split; [exact Hbad|].
          left. now apply parse_line_lacks_token.
        + cbn in Heq. injection Heq as -> Heq. inversion Hpre; subst.
          split; [assumption|]. right. left. now exists pre, bad, rest'.
      - rewrite Hlines in Hall. inversion Hall; subst.
        split; [assumption|]. right. now right. }
    destruct Hstep as [Hsent Hstep]. unfold sentinel in Hsent. rewrite Hsent.
    pose proof (parse_line_returns line) as Hret.
    destruct (parse_line line) as [[move visits]|e|] eqn:Hparse; [| |congruence].
    + destruct Hstep as [[e He]|Hrest]; [discriminate|].
      apply IH; [cbn; lia|exact Hrest].
    + now do 2 eexists.
Qed.

End ProbeProperties.

Section ProbeTheorems.
Context `{ChessLib}.

Lemma py_index_square_name (sq : Z) (t : string) :
  py_index SQUARE_NAMES sq = Ok t -> has_char newline t = false.
Proof.
  unfold py_index.
  destruct ((0 <=? (if sq <? 0 then sq + Z.of_nat (List.length SQUARE_NAMES) else sq))
            && ((if sq <? 0 then sq + Z.of_nat (List.length SQUARE_NAMES) else sq)
                <? Z.of_nat (List.length SQUARE_NAMES))); [|discriminate].
  destruct (nth_error SQUARE_NAMES _) as [x|] eqn:Hnth; [|discriminate].
  intros Heq. injection Heq as <-. apply nth_error_In in Hnth. revert x Hnth.
  apply Forall_forall. repeat constructor.
Qed.

Lemma py_index_square_ok (sq : Z) :
  is_square sq -> exists t, py_index SQUARE_NAMES sq = Ok t.
Proof.
  unfold is_square, py_index. intros Hsq.
  change (Z.of_nat (List.length SQUARE_NAMES)) with 64.
  destruct (sq <? 0) eqn:Hneg; [lia|].
  replace ((0 <=? sq) && (sq <? 64)) with true by lia.
  destruct (nth_error SQUARE_NAMES (Z.to_nat sq)) as [x|] eqn:Hnth; [now exists x|].
  apply nth_error_None in Hnth. change (List.length SQUARE_NAMES) with 64%nat in Hnth. lia.
Qed.

Lemma has_char_append (c : ascii) (a b : string) :
  has_char c (a ++ b) = has_char c a || has_char c b.
Proof.
  induction a as [|d a IH]; [reflexivity|]. cbn. rewrite IH. apply orb_assoc.
Qed.

Lemma uci_no_newline (m : Move) (u : string) :
  uci m = Ok u -> has_char newline u = false.
Proof.
  unfold uci. destruct (drop m) as [d|].
  - destruct (py_index SQUARE_NAMES (to_square m)) as [t| |] eqn:Ht;
      cbn [bind]; try discriminate.
    intros Hu. injection Hu as <-. apply py_index_square_name in Ht.
    rewrite !has_char_append. cbn [has_char]. rewrite Ht. destruct d; reflexivity.
  - destruct (promotion m) as [p|];
      [|destruct (negb (from_square m =? 0) || negb (to_square m =? 0))].
    + destruct (py_index SQUARE_NAMES (from_square m)) as [f| |] eqn:Hf;
        cbn [bind]; try discriminate.
      destruct (py_index SQUARE_NAMES (to_square m)) as [t| |] eqn:Ht;
        cbn [bind]; try discriminate.
      intros Hu. injection Hu as <-. apply py_index_square_name in Hf, Ht.
      rewrite !has_char_append, Hf, Ht. destruct p; reflexivity.
    + destruct (py_index SQUARE_NAMES (from_square m)) as [f| |] eqn:Hf;
        cbn [bind]; try discriminate.
      destruct (py_index SQUARE_NAMES (to_square m)) as [t| |] eqn:Ht;
        cbn [bind]; try discriminate.
      intros Hu. injection Hu as <-. apply py_index_square_name in Hf, Ht.
      now rewrite !has_char_append, Hf, Ht.
    + intros Hu. injection Hu as <-. reflexivity.
Qed.

Lemma uci_squares_ok (m : Move) :
  is_square (from_square m) -> is_square (to_square m) -> exists u, uci m = Ok u.
Proof.
  intros Hf Ht.
  destruct (py_index_square_ok _ Hf) as [f Hfi], (py_index_square_ok _ Ht) as [t Hti].
  unfold uci. rewrite Hfi, Hti. cbn [bind].
  destruct (drop m); [now eexists|].
  destruct (promotion m); [now eexists|].
  destruct (negb (from_square m =? 0) || negb (to_square m =? 0)); now eexists.
Qed.

Lemma mapM_uci_ok (moves : list Move) :
  Forall (fun m => is_square (from_square m) /\ is_square (to_square m)) moves ->
  exists ucis, mapM uci moves = Ok ucis /\ Forall2 (fun m u => uci m = Ok u) moves ucis.
Proof.
  induction 1 as [|m moves [Hf Ht] _ (ucis & Hm & Hall)].
  - exists []. split; [reflexivity|constructor].
  - destruct (uci_squares_ok m Hf Ht) as [u Hu].
    exists (u :: ucis). cbn [mapM]. rewrite Hu, Hm. split; [reflexivity|now constructor].
Qed.

Lemma mapM_uci_returns (moves : list Move) : mapM uci moves <> OutOfFuel.
Proof.
  induction moves as [|m moves IH]; [discriminate|].
  cbn [mapM]. destruct (uci m) as [u|e|] eqn:Hu; cbn [bind]; [|discriminate|].
  - destruct (mapM uci moves); cbn [bind]; congruence.
  - exfalso. revert Hu. unfold uci.
    repeat match goal with
           | |- context [match ?x with _ => _ end] => destruct x
           end; cbn [bind]; try discriminate;
      unfold py_index;
      repeat match goal with
             | |- context [match ?x with _ => _ end] => destruct x
             | |- context [if ?x then _ else _] => destruct x
             end; cbn [bind]; discriminate.
Qed.

Lemma string_app_assoc (a b c : string) : (a ++ (b ++ c) = (a ++ b) ++ c)%string.
Proof. induction a as [|x a IH]; [reflexivity|]. cbn. now rewrite IH. Qed.

Lemma lines_of_single (s : string) :
  has_char newline s = false -> lines_of (s ++ line_end) = [(s ++ line_end)%string].
Proof.
  induction s as [|c s IH]; [reflexivity|].
  cbn [has_char]. intros Hc. apply orb_false_iff in Hc. destruct Hc as [Hc Hs].
  cbn [append lines_of]. rewrite Ascii.eqb_sym in Hc. rewrite Hc.
  now rewrite (IH Hs).
Qed.

Lemma join_ucis_no_newline (ucis : list string) :
  Forall (fun u => has_char newline u = false) ucis ->
  has_char newline (join (map (fun u => (" " ++ u)%string) ucis)) = false.
Proof.
  induction 1 as [|u ucis Hu _ IH]; [reflexivity|].
  unfold join in *. cbn in *. now rewrite has_char_append, Hu.
Qed.

Lemma probe_sends (moves : list Move) (ucis : list string) (self : Leela) :
  mapM uci moves = Ok ucis ->
  exists r self',
    probe moves self = (r, self')
    /\ r <> OutOfFuel
    /\ stdin self' = (stdin self ++ dumpnode_command ucis)%string
    /\ (String.length (stdout self') <= String.length (stdout self))%nat
    /\ (forall d, r = Ok d -> (String.length (stdout self') < String.length (stdout self))%nat).
Proof.
  intros Hm. unfold probe. rewrite Hm.
  destruct (probe_loop_total (S (String.length (stdout (send (dumpnode_command ucis) self))))
              [] (send (dumpnode_command ucis) self)) as (r & self' & Heq & Hr & Hin & Hle & Hlt);
    [lia|].
  exists r, self'. cbn [send stdin stdout] in *. now repeat split.
Qed.

(** C5: when a line without the sentinel lacks [move=] or [n=] and no line
    before it has the sentinel, or when the stream ends and no line had the
    sentinel, [probe] raises: it neither returns a mapping nor goes on
    reading. *)
Theorem probe_raises_on_protocol_fault (moves : list Move) (self : Leela) :
  protocol_fault (stdout self) ->
  exists e self', probe moves self = (Raise e, self').
Proof.
  intros Hfault. unfold probe.
  pose proof (mapM_uci_returns moves) as Hret.
  destruct (mapM uci moves) as [ucis|e|]; [|now do 2 eexists|congruence].
  apply probe_loop_fault; [cbn; lia|exact Hfault].
Qed.

(** C9: [probe] writes one line to the engine, [dumpnode moves] followed by
    the long-algebraic form of every move of the path, each after a space;
    for the empty path the line is [dumpnode moves] alone. *)
Theorem probe_sends_dumpnode_line (moves : list Move) (self : Leela) :
  Forall (fun m => is_square (from_square m) /\ is_square (to_square m)) moves ->
  exists ucis r self',
    Forall2 (fun m u => uci m = Ok u) moves ucis
    /\ probe moves self = (r, self')
    /\ r <> OutOfFuel
    /\ stdin self'
       = (stdin self ++ "dumpnode moves" ++ join (map (fun u => (" " ++ u)%string) ucis) ++ line_end)%string
    /\ lines_of ("dumpnode moves" ++ join (map (fun u => (" " ++ u)%string) ucis) ++ line_end)%string
       = [("dumpnode moves" ++ join (map (fun u => (" " ++ u)%string) ucis) ++ line_end)%string]
    /\ (moves = [] -> stdin self' = (stdin self ++ "dumpnode moves" ++ line_end)%string).
Proof.
  intros Hsq. destruct (mapM_uci_ok moves Hsq) as (ucis & Hm & Hall).
  destruct (probe_sends moves ucis self Hm) as (r & self' & Heq & Hr & Hin & _).
  exists ucis, r, self'. unfold dumpnode_command in Hin.
  repeat split; try assumption.
  - rewrite (string_app_assoc "dumpnode moves"%string). apply lines_of_single.
    rewrite has_char_append, join_ucis_no_newline; [reflexivity|].
    clear -Hall. induction Hall as [|m u ms us Hu _ IH]; constructor; [|exact IH].
    now apply uci_no_newline in Hu.
  - intros ->. inversion Hall; subst. exact Hin.
Qed.

End ProbeTheorems.

(** ** Dictionaries and the best move *)

Lemma PieceType_eqb_eq (p q : PieceType) : PieceType_eqb p q = true <-> p = q.
Proof. destruct p, q; cbn; split; congruence. Qed.

Lemma option_PieceType_eqb_eq (p q : option PieceType) :
  option_eqb PieceType_eqb p q = true <-> p = q.
Proof.
  destruct p as [p|], q as [q|]; cbn; try (split; congruence).
  rewrite PieceType_eqb_eq. split; congruence.
Qed.

Lemma Move_eqb_eq (m n : Move) : Move_eqb m n = true <-> m = n.
Proof.
  unfold Move_eqb. rewrite !andb_true_iff, !Z.eqb_eq, !option_PieceType_eqb_eq.
  destruct m, n; cbn. split.
  - intros [[[-> ->] ->] ->]. reflexivity.
  - intros Heq. injection Heq as -> -> -> ->. auto.
Qed.

Lemma Move_eqb_refl (m : Move) : Move_eqb m m = true.
Proof. now apply Move_eqb_eq. Qed.

Lemma dict_set_keys (d : dict) (k : Move) (v : Z) (k' : Move) :
  In k' (dict_keys (dict_set d k v)) <-> k' = k \/ In k' (dict_keys d).
Proof.
  induction d as [|[k0 v0] d IH]; cbn.
  - intuition congruence.
  - destruct (Move_eqb k k0) eqn:Hk; cbn.
    + apply Move_eqb_eq in Hk. subst k0. intuition congruence.
    + rewrite IH. intuition congruence.
Qed.

Lemma dict_set_nodup (d : dict) (k : Move) (v : Z) :
  NoDup (dict_keys d) -> NoDup (dict_keys (dict_set d k v)).
Proof.
  induction d as [|[k0 v0] d IH]; cbn; intros Hnd.
  - constructor; [intros []|constructor].
  - inversion Hnd as [|? ? Hnot Hnd']; subst.
    destruct (Move_eqb k k0) eqn:Hk; cbn; [now constructor|].
    constructor; [|now apply IH].
    rewrite dict_set_keys. intros [->|Hin]; [|contradiction].
    rewrite Move_eqb_refl in Hk. discriminate.
Qed.

Lemma getitem_in (d : dict) (k : Move) (v : Z) :
  NoDup (dict_keys d) -> (getitem d k = Ok v <-> In (k, v) d).
Proof.
  induction d as [|[k0 v0] d IH]; cbn; intros Hnd.
  - split; [discriminate|contradiction].
  - inversion Hnd as [|? ? Hnot Hnd']; subst.
    destruct (Move_eqb k k0) eqn:Hk.
    + apply Move_eqb_eq in Hk. subst k0. split.
      * intros Heq. injection Heq as ->. now left.
      * intros [Heq|Hin]; [congruence|].
        exfalso. apply Hnot. apply (in_map fst) in Hin. exact Hin.
    + rewrite (IH Hnd'). split; [now right|].
      intros [Heq|Hin]; [|exact Hin].
      injection Heq as -> ->. rewrite Move_eqb_refl in Hk. discriminate.
Qed.

Lemma getitem_key (d : dict) (k : Move) :
  In k (dict_keys d) -> exists v, getitem d k = Ok v.
Proof.
  induction d as [|[k0 v0] d IH]; cbn; [contradiction|].
  intros Hin. destruct (Move_eqb k k0) eqn:Hk; [now eexists|].
  destruct Hin as [->|Hin]; [|now apply IH].
  rewrite Move_eqb_refl in Hk. discriminate.
Qed.

Lemma max_loop_spec (f : Move -> outcome Z) (items : list Move) :
  (forall k, In k items -> exists v, f k = Ok v) ->
  forall best bv, f best = Ok bv ->
  exists m v,
    max_loop f best bv items = Ok m /\ f m = Ok v /\ bv <= v
    /\ (m = best \/ In m items)
    /\ (forall k v', In k items -> f k = Ok v' -> v' <= v).
Proof.
  induction items as [|k items IH]; intros Hf best bv Hbest.
  - exists best, bv. cbn. repeat split; auto; try lia; contradiction.
  - destruct (Hf k (or_introl eq_refl)) as [vk Hvk].
    cbn [max_loop]. rewrite Hvk. cbn [bind].
    assert (Hf' : forall k', In k' items -> exists v, f k' = Ok v)
      by (intros k' Hk'; apply Hf; now right).
    destruct (bv <? vk) eqn:Hlt.
    + destruct (IH Hf' k vk Hvk) as (m & v & Hm & Hfm & Hle & Hin & Hmax).
      exists m, v. repeat split; try assumption; try lia.
      * destruct Hin as [->|Hin]; right; [now left|now right].
      * intros k' v' [->|Hk'] Hv'; [|now apply (Hmax k')].
        rewrite Hvk in Hv'. injection Hv' as <-. exact Hle.
    + destruct (IH Hf' best bv Hbest) as (m & v & Hm & Hfm & Hle & Hin & Hmax).
      exists m, v. repeat split; try assumption.
      * destruct Hin as [->|Hin]; [now left|right; now right].
      * intros k' v' [->|Hk'] Hv'; [|now apply (Hmax k')].
        rewrite Hvk in Hv'. injection Hv' as <-. lia.
Qed.

(** On a dictionary that is not empty, [max(d, key=d.__getitem__)] is a key
    whose value no other value exceeds. *)
Lemma py_max_getitem (d : dict) :
  NoDup (dict_keys d) -> d <> [] ->
  exists best v,
    py_max (getitem d) (dict_keys d) = Ok best
    /\ getitem d best = Ok v
    /\ In (best, v) d
    /\ (forall m' v', In (m', v') d -> v' <= v).
Proof.
  intros Hnd Hne. destruct d as [|[k0 v0] d]; [congruence|].
  assert (Hall : forall k, In k (dict_keys ((k0, v0) :: d)) ->
                           exists v, getitem ((k0, v0) :: d) k = Ok v)
    by (intros k; apply getitem_key).
  assert (H0 : getitem ((k0, v0) :: d) k0 = Ok v0) by (cbn; now rewrite Move_eqb_refl).
  destruct (max_loop_spec (getitem ((k0, v0) :: d)) (dict_keys d)
              (fun k Hk => Hall k (or_intror Hk)) k0 v0 H0)
    as (m & v & Hm & Hfm & Hle & Hin & Hmax).
  exists m, v. unfold py_max. cbn [dict_keys map fst]. fold (dict_keys d).
  rewrite H0. cbn [bind].
  split; [exact Hm|]. split; [exact Hfm|].
  split; [now apply getitem_in|].
  intros m' v' [Heq|Hin'].
  - injection Heq as <- <-. exact Hle.
  - apply (Hmax m'); [apply (in_map fst) in Hin'; exact Hin'|].
    apply getitem_in; [exact Hnd|now right].
Qed.

(** ** The traversal *)

Section ExploreProperties.
Context `{ChessLib}.

Lemma probe_loop_nodup (fuel : nat) (children : dict) (self : Leela)
    (d : dict) (self' : Leela) :
  NoDup (dict_keys children) ->
  probe_loop fuel children self = (Ok d, self') -> NoDup (dict_keys d).
Proof.
  revert children self. induction fuel as [|fuel IH]; intros children self Hnd; [discriminate|].
  cbn [probe_loop]. destruct (readline self) as [line self1].
  destruct (contains "end-dump" line).
  - intros Heq. injection Heq as <- _. exact Hnd.
  - destruct (parse_line line) as [[move visits]|e|]; try discriminate.
    apply IH. now apply dict_set_nodup.
Qed.

Lemma probe_nodup (moves : list Move) (self : Leela) (d : dict) (self' : Leela) :
  probe moves self = (Ok d, self') -> NoDup (dict_keys d).
Proof.
  unfold probe. destruct (mapM uci moves); try discriminate.
  apply probe_loop_nodup. constructor.
Qed.

Lemma probe_total (moves : list Move) (self : Leela) :
  exists r self',
    probe moves self = (r, self')
    /\ r <> OutOfFuel
    /\ (String.length (stdout self') <= String.length (stdout self))%nat
    /\ (forall d, r = Ok d -> (String.length (stdout self') < String.length (stdout self))%nat).
Proof.
  destruct (mapM uci moves) as [ucis|e|] eqn:Hm.
  - destruct (probe_sends moves ucis self Hm) as (r & self' & Heq & Hr & _ & Hle & Hlt).
    now exists r, self'.
  - exists (Raise e), self. unfold probe. rewrite Hm.
    repeat split; try discriminate; lia.
  - now apply mapM_uci_returns in Hm.
Qed.

Lemma getitem_returns (d : dict) (k : Move) : getitem d k <> OutOfFuel.
Proof.
  induction d as [|[k0 v0] d IH]; cbn; [discriminate|].
  destruct (Move_eqb k k0); [discriminate|exact IH].
Qed.

Lemma max_loop_returns (d : dict) (items : list Move) (best : Move) (bv : Z) :
  max_loop (getitem d) best bv items <> OutOfFuel.
Proof.
  revert best bv. induction items as [|k items IH]; intros best bv; cbn; [discriminate|].
  pose proof (getitem_returns d k) as Hk.
  destruct (getitem d k) as [v| |]; cbn [bind]; try congruence.
  destruct (bv <? v); apply IH.
Qed.

Lemma best_entry_returns (board : Board) (children : dict) :
  best_entry board children <> OutOfFuel.
Proof.
  unfold best_entry, py_max.
  destruct (dict_keys children) as [|k items]; [discriminate|].
  pose proof (getitem_returns children k) as Hk.
  destruct (getitem children k) as [v| |]; cbn [bind]; try congruence.
  pose proof (max_loop_returns children items k v) as Hm.
  destruct (max_loop (getitem children) k v items) as [best| |]; cbn [bind]; try congruence.
  pose proof (getitem_returns children best) as Hb.
  destruct (getitem children best) as [vb| |]; cbn [bind]; try congruence.
  unfold make_entry, move_to_polyglot_int.
  destruct (promotion_code (promotion best)) as [p| |] eqn:Hp; cbn [bind]; try discriminate.
  destruct (promotion best) as [[]|]; discriminate.
Qed.

Lemma with_prefix_app (a b : list Entry) (r : run) :
  with_prefix a (with_prefix b r) = with_prefix (a ++ b) r.
Proof. destruct r as [[o l] es]. cbn. now rewrite app_assoc. Qed.

(** The loop only adds to the end of [entries]. *)
Lemma explore_children_frame recurse board moves th items leela entries :
  frames recurse ->
  explore_children recurse board moves th items leela entries
  = with_prefix entries (explore_children recurse board moves th items leela []).
Proof.
  intros Hrec. revert leela entries.
  induction items as [|[move visits] items IH]; intros leela entries.
  - cbn. now rewrite app_nil_r.
  - cbn [explore_children]. destruct (visits <? th); [apply IH|].
    destruct (negb (is_legal board move)); [cbn; now rewrite app_nil_r|].
    rewrite (Hrec leela entries).
    destruct (recurse leela [] (push board move) (moves ++ [move]) th) as [[o l'] es'].
    cbn [with_prefix]. destruct o as [[]| |]; try reflexivity.
    rewrite (IH l' (entries ++ es')), (IH l' es'). now rewrite with_prefix_app.
Qed.

Lemma explore_tree_frame (fuel : nat) : frames (explore_tree fuel).
Proof.
  induction fuel as [|fuel IH]; intros leela entries board moves th.
  - cbn. now rewrite app_nil_r.
  - cbn [explore_tree].
    destruct (probe moves leela) as [[children| |] leela1];
      try (cbn; now rewrite app_nil_r).
    destruct children as [|c children]; [cbn; now rewrite app_nil_r|].
    destruct (best_entry board (c :: children)) as [entry| |];
      try (cbn; now rewrite app_nil_r).
    rewrite (explore_children_frame _ _ _ _ _ _ (entries ++ [entry]) IH).
    rewrite (explore_children_frame _ _ _ _ _ _ ([] ++ [entry]) IH).
    rewrite with_prefix_app. reflexivity.
Qed.

(** Below the threshold nothing happens; at or above it the move is
    explored. *)
Lemma explore_children_recurse_into recurse board moves th items leela entries :
  explore_children recurse board moves th items leela entries
  = recurse_into recurse board moves th
      (map fst (filter (fun mv => th <=? snd mv) items)) leela entries.
Proof.
  revert leela entries. induction items as [|[move visits] items IH]; intros leela entries.
  - reflexivity.
  - cbn [explore_children filter snd].
    destruct (visits <? th) eqn:Hlt.
    + replace (th <=? visits) with false by lia. apply IH.
    + replace (th <=? visits) with true by lia.
      cbn [map fst recurse_into].
      destruct (is_legal board move); cbn [negb]; [|reflexivity].
      destruct (recurse leela entries (push board move) (moves ++ [move]) th)
        as [[[[]| |] l'] es']; try reflexivity.
      apply IH.
Qed.

Lemma explore_children_total recurse fuel board moves th items leela entries :
  (forall l es b ms t, (String.length (stdout l) < fuel)%nat ->
      run_total (String.length (stdout l)) (recurse l es b ms t)) ->
  (String.length (stdout leela) < fuel)%nat ->
  run_total (String.length (stdout leela))
    (explore_children recurse board moves th items leela entries).
Proof.
  intros Hrec. revert leela entries.
  induction items as [|[move visits] items IH]; intros leela entries Hfuel.
  - split; [discriminate|cbn; lia].
  - cbn [explore_children]. destruct (visits <? th); [now apply IH|].
    destruct (negb (is_legal board move)); [split; [discriminate|cbn; lia]|].
    destruct (Hrec leela entries (push board move) (moves ++ [move]) th Hfuel) as [Ho Hl].
    destruct (recurse leela entries (push board move) (moves ++ [move]) th)
      as [[o l'] es']. unfold outcome_of, leela_of in Ho, Hl. cbn [fst snd] in Ho, Hl.
    destruct o as [[]|e|]; [|split; [discriminate|exact Hl]|congruence].
    destruct (IH l' es') as [Ho' Hl']; [lia|]. split; [exact Ho'|lia].
Qed.

(** With a budget above the length of the stream the traversal ends by
    itself, and when it returns normally it has read something. *)
Lemma explore_tree_total (fuel : nat) leela entries board moves th :
  (String.length (stdout leela) < fuel)%nat ->
  run_total (String.length (stdout leela)) (explore_tree fuel leela entries board moves th)
  /\ (outcome_of (explore_tree fuel leela entries board moves th) = Ok tt ->
      (String.length (stdout (leela_of (explore_tree fuel leela entries board moves th)))
       < String.length (stdout leela))%nat).
Proof.
  revert leela entries board moves th.
  induction fuel as [|fuel IH]; intros leela entries board moves th Hfuel; [lia|].
  cbn [explore_tree].
  destruct (probe_total moves leela) as (r & leela1 & Hp & Hr & Hle & Hlt).
  rewrite Hp. destruct r as [children|e|]; [| |congruence].
  - specialize (Hlt children eq_refl).
    destruct children as [|c children].
    + split; [split; [discriminate|cbn; lia]|intros _; cbn; lia].
    + pose proof (best_entry_returns board (c :: children)) as Hb.
      destruct (best_entry board (c :: children)) as [entry|e|]; [| |congruence].
      * destruct (explore_children_total (explore_tree fuel) fuel board moves th
                    (c :: children) leela1 (entries ++ [entry])) as [Ho Hl].
        { intros l es b ms t Hl. now apply IH. }
        { lia. }
        split; [split; [exact Ho|lia]|intros _; lia].
      * split; [split; [discriminate|cbn; lia]|discriminate].
  - split; [split; [discriminate|cbn; lia]|discriminate].
Qed.

End ExploreProperties.

Section ExploreTheorems.
Context `{ChessLib}.

Lemma best_entry_spec (board : Board) (children : dict) :
  NoDup (dict_keys children) -> children <> [] ->
  exists best visits,
    py_max (getitem children) (dict_keys children) = Ok best
    /\ In (best, visits) children
    /\ (forall m v, In (m, v) children -> v <= visits)
    /\ best_entry board children
       = (code <- move_to_polyglot_int board best ;;
          Ok {| key := zobrist_hash board; raw_move := code;
                weight := Z.min 65535 (visits / 256); learn := 0 |}).
Proof.
  intros Hnd Hne.
  destruct (py_max_getitem children Hnd Hne) as (best & visits & Hmax & Hget & Hin & Hle).
  exists best, visits. repeat split; try assumption.
  unfold best_entry. rewrite Hmax. cbn [bind]. rewrite Hget. cbn [bind].
  reflexivity.
Qed.

Lemma explore_tree_node (fuel : nat) leela entries board moves th children leela1 :
  probe moves leela = (Ok children, leela1) -> children <> [] ->
  explore_tree (S fuel) leela entries board moves th
  = match best_entry board children with
    | Ok entry =>
        with_prefix (entries ++ [entry])
          (explore_children (explore_tree fuel) board moves th children leela1 [])
    | Raise e => (Raise e, leela1, entries)
    | OutOfFuel => (OutOfFuel, leela1, entries)
    end.
Proof.
  intros Hp Hne. cbn [explore_tree]. rewrite Hp.
  destruct children as [|c children]; [congruence|].
  destruct (best_entry board (c :: children)); try reflexivity.
  apply explore_children_frame, explore_tree_frame.
Qed.

(** C7: when the probe of a position returns the empty mapping,
    [explore_tree] returns normally at once: [entries] is unchanged and the
    engine is left as that one probe left it. *)
Theorem explore_tree_empty_probe_returns (fuel : nat) leela entries board moves th leela1 :
  probe moves leela = (Ok [], leela1) ->
  explore_tree (S fuel) leela entries board moves th = (Ok tt, leela1, entries).
Proof. intros Hp. cbn [explore_tree]. now rewrite Hp. Qed.

(** C2: for a probe result that is not empty (the moves in it having legal
    promotion pieces) [explore_tree] appends one entry for the position, that
    of a most visited move, with weight [min(65535, visits // 256)] and learn
    0; what follows it in [entries] comes from the loop over the children.
    The weight is at most 65535, and it is 65535 from [256 * 65535] visits
    on, at [256 * 65535 + 255] as well. *)
Theorem explore_tree_best_record_weight (fuel : nat) leela entries board moves th
    children leela1 :
  probe moves leela = (Ok children, leela1) ->
  children <> [] ->
  Forall (fun mv => legal_promotion (promotion (fst mv))) children ->
  exists best visits code,
    In (best, visits) children
    /\ (forall m v, In (m, v) children -> v <= visits)
    /\ move_to_polyglot_int board best = Ok code
    /\ explore_tree (S fuel) leela entries board moves th
       = with_prefix
           (entries ++ [ {| key := zobrist_hash board; raw_move := code;
                            weight := Z.min 65535 (visits / 256); learn := 0 |} ])
           (explore_children (explore_tree fuel) board moves th children leela1 [])
    /\ Z.min 65535 (visits / 256) <= 65535
    /\ (0 <= visits -> 0 <= Z.min 65535 (visits / 256))
    /\ (256 * 65535 <= visits -> Z.min 65535 (visits / 256) = 65535)
    /\ (visits = 256 * 65535 -> Z.min 65535 (visits / 256) = 65535)
    /\ (visits = 256 * 65535 + 255 -> Z.min 65535 (visits / 256) = 65535).
Proof.
  intros Hp Hne Hlegal.
  destruct (best_entry_spec board children (probe_nodup _ _ _ _ Hp) Hne)
    as (best & visits & _ & Hin & Hmax & Hbest).
  assert (Hprom : legal_promotion (promotion best))
    by (rewrite Forall_forall in Hlegal; apply (Hlegal (best, visits) Hin)).
  destruct (promotion_code_legal _ Hprom) as (p & Hp' & _).
  assert (Hcode : exists code, move_to_polyglot_int board best = Ok code)
    by (unfold move_to_polyglot_int; rewrite Hp'; now eexists).
  destruct Hcode as [code Hcode].
  exists best, visits, code.
  rewrite (explore_tree_node fuel _ _ _ _ _ _ _ Hp Hne), Hbest, Hcode. cbn [bind].
  repeat split; try assumption; try lia.
  - intros Hv. assert (0 <= visits / 256) by (apply Z.div_pos; lia). lia.
  - intros Hv. assert (65535 <= visits / 256) by (apply Z.div_le_lower_bound; lia). lia.
  - intros ->. reflexivity.
  - intros ->. reflexivity.
Qed.

(** C3: the move recorded for a position with a probe result that is not
    empty is the one [max] picks, a move of the result whose visit count no
    other move of the result exceeds. *)
Theorem explore_tree_records_most_visited (fuel : nat) leela entries board moves th
    children leela1 :
  probe moves leela = (Ok children, leela1) ->
  children <> [] ->
  exists best visits,
    py_max (getitem children) (dict_keys children) = Ok best
    /\ In (best, visits) children
    /\ (forall m v, In (m, v) children -> v <= visits)
    /\ explore_tree (S fuel) leela entries board moves th
       = match move_to_polyglot_int board best with
         | Ok code =>
             with_prefix
               (entries ++ [ {| key := zobrist_hash board; raw_move := code;
                                weight := Z.min 65535 (visits / 256); learn := 0 |} ])
               (explore_children (explore_tree fuel) board moves th children leela1 [])
         | Raise e => (Raise e, leela1, entries)
         | OutOfFuel => (OutOfFuel, leela1, entries)
         end.
Proof.
  intros Hp Hne.
  destruct (best_entry_spec board children (probe_nodup _ _ _ _ Hp) Hne)
    as (best & visits & Hpy & Hin & Hmax & Hbest).
  exists best, visits. repeat split; try assumption.
  rewrite (explore_tree_node fuel _ _ _ _ _ _ _ Hp Hne), Hbest.
  destruct (move_to_polyglot_int board best); reflexivity.
Qed.

(** C4: after the entry of the position, [explore_tree] explores the moves of
    the probe result whose visit count is at least the threshold, in order,
    each on the position with the move made and with the path extended by the
    move, and no others: a move below the threshold is not among them. *)
Theorem explore_tree_recurses_above_threshold (fuel : nat) leela entries board moves th
    children leela1 entry :
  probe moves leela = (Ok children, leela1) ->
  best_entry board children = Ok entry ->
  explore_tree (S fuel) leela entries board moves th
  = recurse_into (explore_tree fuel) board moves th
      (map fst (filter (fun mv => th <=? snd mv) children)) leela1 (entries ++ [entry])
  /\ (forall m v, In (m, v) (filter (fun mv => th <=? snd mv) children)
                  <-> In (m, v) children /\ th <= v).
Proof.
  intros Hp Hbest. split.
  - cbn [explore_tree]. rewrite Hp.
    destruct children as [|c children]; [discriminate|].
    rewrite Hbest. apply explore_children_recurse_into.
  - intros m v. rewrite filter_In. cbn [snd]. rewrite Z.leb_le. reflexivity.
Qed.

End ExploreTheorems.

(** ** The multiwrite loop *)

Section Multiwrite.
Context `{ChessLib}.

Lemma write_entries_returns (f : list byte) (es : list Entry) :
  fst (write_entries f es) <> OutOfFuel.
Proof.
  revert f. induction es as [|e es IH]; intros f; cbn; [discriminate|].
  unfold pack_entry. destruct (entry_in_range e); [apply IH|discriminate].
Qed.

Lemma multiwrite_loop_rounds (output : string) (fuel i : nat) leela fs :
  (String.length (stdout leela) < fuel)%nat ->
  multiwrite_rounds output i leela fs
    (multiwrite_loop fuel output (256 * 2 ^ Z.of_nat i) leela fs).
Proof.
  revert i leela fs. induction fuel as [|fuel IH]; intros i leela fs Hfuel; [lia|].
  cbn [multiwrite_loop].
  destruct (explore_tree_total (enough_fuel leela) leela [] starting_board []
              (256 * 2 ^ Z.of_nat i)) as [[Ho Hl] Hlt]; [unfold enough_fuel; lia|].
  fold (traversal (256 * 2 ^ Z.of_nat i) leela) in *.
  destruct (traversal (256 * 2 ^ Z.of_nat i) leela) as [[o leela'] entries] eqn:Htr.
  unfold outcome_of, leela_of in *. cbn [fst snd] in *.
  destruct o as [[]|e|]; [| |congruence].
  - specialize (Hlt eq_refl).
    destruct (2 <? List.length entries)%nat eqn:Hn.
    + apply Nat.ltb_lt in Hn.
      pose proof (write_entries_returns [] (sorted_by_key entries)) as Hw.
      fold (write_polyglot_bin [] entries) in Hw.
      destruct (write_polyglot_bin [] entries) as [[[]|e|] f] eqn:Hwrite;
        cbn [fst] in Hw; [| |congruence].
      * eapply rounds_write; try eassumption.
        unfold multiwrite_name.
        replace (256 * 2 ^ Z.of_nat i * 2) with (256 * 2 ^ Z.of_nat (S i))
          by (rewrite Nat2Z.inj_succ, Z.pow_succ_r by lia; lia).
        apply IH. lia.
      * eapply rounds_write_raises; eassumption.
    + apply Nat.ltb_ge in Hn. eapply rounds_stop; eassumption.
  - eapply rounds_traversal_raises; eassumption.
Qed.

(** C10: the multiwrite mode starts with threshold 256 (round 0) and doubles
    it from one traversal to the next; a traversal with more than two
    entries is written to the file named by the output path, a dash, the
    threshold and [n.bin] and is followed by the next; the first traversal
    with at most two entries writes nothing and ends the loop. *)
Theorem multiwrite_doubles_threshold (output : string) (leela : Leela) (fs : files) :
  multiwrite_rounds output 0 leela fs (multiwrite output leela fs).
Proof.
  unfold multiwrite.
  change 256 with (256 * 2 ^ Z.of_nat 0) at 1.
  apply multiwrite_loop_rounds. unfold enough_fuel. lia.
Qed.

End Multiwrite.

(** * Runs of the model *)

Lemma explore_tree_empty_probe_returns_witness :
  @explore_tree demo_chess 1 (mkLeela "" (lines ["end-dump"%string])) [] starting_board [] 10
  = (Ok tt, mkLeela ("dumpnode moves" ++ line_end) "", []).
Proof.
  apply (@explore_tree_empty_probe_returns demo_chess 0
           (mkLeela "" (lines ["end-dump"%string])) [] starting_board [] 10).
  reflexivity.
Defined.

Lemma explore_tree_best_record_weight_witness :
  exists best visits code,
    In (best, visits) boundary_children
    /\ (forall m v, In (m, v) boundary_children -> v <= visits)
    /\ move_to_polyglot_int starting_board best = Ok code
    /\ @explore_tree demo_chess 1 (mkLeela "" boundary_stream) [] starting_board [] 20000000
       = with_prefix
           ([] ++ [ {| key := demo_hash starting_board; raw_move := code;
                       weight := Z.min 65535 (visits / 256); learn := 0 |} ])
           (@explore_children demo_chess (@explore_tree demo_chess 0) starting_board []
              20000000 boundary_children (mkLeela ("dumpnode moves" ++ line_end) "") [])
    /\ Z.min 65535 (visits / 256) <= 65535
    /\ (0 <= visits -> 0 <= Z.min 65535 (visits / 256))
    /\ (256 * 65535 <= visits -> Z.min 65535 (visits / 256) = 65535)
    /\ (visits = 256 * 65535 -> Z.min 65535 (visits / 256) = 65535)
    /\ (visits = 256 * 65535 + 255 -> Z.min 65535 (visits / 256) = 65535).
Proof.
  apply (@explore_tree_best_record_weight demo_chess 0 (mkLeela "" boundary_stream) []
           starting_board [] 20000000 boundary_children
           (mkLeela ("dumpnode moves" ++ line_end) "")).
  - reflexivity.
  - discriminate.
  - repeat constructor; discriminate.
Defined.

Lemma explore_tree_records_most_visited_witness :
  exists best visits,
    py_max (getitem pruning_children) (dict_keys pruning_children) = Ok best
    /\ In (best, visits) pruning_children
    /\ (forall m v, In (m, v) pruning_children -> v <= visits)
    /\ @explore_tree demo_chess 2 (mkLeela "" pruning_stream) [] starting_board [] 10
       = match move_to_polyglot_int starting_board best with
         | Ok code =>
             with_prefix
               ([] ++ [ {| key := demo_hash starting_board; raw_move := code;
                           weight := Z.min 65535 (visits / 256); learn := 0 |} ])
               (@explore_children demo_chess (@explore_tree demo_chess 1) starting_board []
                  10 pruning_children
                  (mkLeela ("dumpnode moves" ++ line_end) (lines ["end-dump"%string])) [])
         | Raise e =>
             (Raise e, mkLeela ("dumpnode moves" ++ line_end) (lines ["end-dump"%string]), [])
         | OutOfFuel =>
             (OutOfFuel, mkLeela ("dumpnode moves" ++ line_end) (lines ["end-dump"%string]), [])
         end.
Proof.
  apply (@explore_tree_records_most_visited demo_chess 1 (mkLeela "" pruning_stream) []
           starting_board [] 10 pruning_children
           (mkLeela ("dumpnode moves" ++ line_end) (lines ["end-dump"%string]))).
  - reflexivity.
  - discriminate.
Defined.

Lemma explore_tree_recurses_above_threshold_witness :
  @explore_tree demo_chess 2 (mkLeela "" pruning_stream) [] starting_board [] 10
  = @recurse_into demo_chess (@explore_tree demo_chess 1) starting_board [] 10
      (map fst (filter (fun mv => 10 <=? snd mv) pruning_children))
      (mkLeela ("dumpnode moves" ++ line_end) (lines ["end-dump"%string]))
      ([] ++ [pruning_entry])
  /\ (forall m v, In (m, v) (filter (fun mv => 10 <=? snd mv) pruning_children)
                  <-> In (m, v) pruning_children /\ 10 <= v).
Proof.
  apply (@explore_tree_recurses_above_threshold demo_chess 1 (mkLeela "" pruning_stream) []
           starting_board [] 10 pruning_children
           (mkLeela ("dumpnode moves" ++ line_end) (lines ["end-dump"%string]))
           pruning_entry).
  - reflexivity.
  - reflexivity.
Defined.

Lemma probe_raises_on_protocol_fault_witness :
  exists e self', @probe demo_chess [] (mkLeela "" faulty_stream) = (Raise e, self').
Proof.
  apply (@probe_raises_on_protocol_fault demo_chess [] (mkLeela "" faulty_stream)).
  left. exists ["info string move=e2e4 n=10 q=0" ++ line_end]%string,
               ("info string n=7 q=0" ++ line_end)%string,
               ["end-dump" ++ line_end]%string.
  split; [reflexivity|]. split; [repeat constructor|].
  split; [reflexivity|]. left. reflexivity.
Defined.

Lemma probe_sends_dumpnode_line_witness :
  exists ucis r self',
    Forall2 (fun m u => uci m = Ok u) [e2e4; e7e5] ucis
    /\ @probe demo_chess [e2e4; e7e5] (mkLeela "" (lines ["end-dump"%string])) = (r, self')
    /\ r <> OutOfFuel
    /\ stdin self'
       = ("" ++ "dumpnode moves" ++ join (map (fun u => (" " ++ u)%string) ucis) ++ line_end)%string
    /\ lines_of ("dumpnode moves" ++ join (map (fun u => (" " ++ u)%string) ucis) ++ line_end)%string
       = [("dumpnode moves" ++ join (map (fun u => (" " ++ u)%string) ucis) ++ line_end)%string]
    /\ ([e2e4; e7e5] = [] -> stdin self' = ("" ++ "dumpnode moves" ++ line_end)%string).
Proof.
  apply (@probe_sends_dumpnode_line demo_chess [e2e4; e7e5]
           (mkLeela "" (lines ["end-dump"%string]))).
  repeat constructor; cbn; lia.
Defined.

(** The pruning run of the specification: two children at the root, one of
    them below the threshold.  One entry is made at the root, for e2e4, and
    the only other probe is that of the position after e2e4. *)
Example pruning_run :
  @explore_tree demo_chess (enough_fuel (mkLeela "" pruning_stream))
     (mkLeela "" pruning_stream) [] starting_board [] 10
  = (Ok tt,
     mkLeela ("dumpnode moves" ++ line_end ++ "dumpnode moves e2e4" ++ line_end) "",
     [pruning_entry]).
Proof. vm_compute. reflexivity. Qed.

(** The weights at the two boundary values. *)
Example boundary_weights :
  @best_entry demo_chess starting_board [(e2e4, 256 * 65535)]
  = Ok {| key := demo_hash starting_board; raw_move := 796; weight := 65535; learn := 0 |}
  /\ @best_entry demo_chess starting_board [(e2e4, 256 * 65535 + 255)]
     = Ok {| key := demo_hash starting_board; raw_move := 796; weight := 65535; learn := 0 |}
  /\ @best_entry demo_chess starting_board [(e2e4, 256 * 65535 - 1)]
     = Ok {| key := demo_hash starting_board; raw_move := 796; weight := 65534; learn := 0 |}.
Proof. repeat split; reflexivity. Qed.

(** The stream ends without the end marker: the probe raises. *)
Example probe_at_end_of_stream :
  @probe demo_chess [] (mkLeela "" (lines ["info string move=e2e4 n=10 q=0"%string]))
  = (Raise AttributeError, mkLeela ("dumpnode moves" ++ line_end) "").
Proof. vm_compute. reflexivity. Qed.

(** A multiwrite run: thresholds 256 and 512 give three entries each and a
    file each; threshold 1024 gives one entry, no file, and ends the loop. *)
Example multiwrite_run :
  let '(o, leela, fs) := @multiwrite demo_chess "book" (mkLeela "" multiwrite_stream) [] in
  o = Ok tt
  /\ map fst fs = ["book-256n.bin"; "book-512n.bin"]%string
  /\ map (fun nf => List.length (snd nf)) fs = [48; 48]%nat
  /\ map key (flat_map (fun nf => read_polyglot_bin (snd nf)) fs)
     = [18437174062208839678; 18446181123756195838; 18446181124024627199;
        18437174062208839678; 18446181123756195838; 18446181124024627199]
  /\ lines_of (stdin leela)
     = map (fun l => (l ++ line_end)%string)
         ["dumpnode moves"; "dumpnode moves e2e4"; "dumpnode moves e2e4 e7e5";
          "dumpnode moves e2e4 e7e5 g1f3";
          "dumpnode moves"; "dumpnode moves e2e4"; "dumpnode moves e2e4 e7e5";
          "dumpnode moves"]%string.
Proof. vm_compute. repeat split; reflexivity. Qed.

(** * Further properties *)

(** ** The move code and the book file *)

(** X1: the lookup of line 20 fails with [KeyError] exactly for a promotion
    to a pawn or to a king; every other move has a code, whatever its
    squares. *)
Theorem move_to_polyglot_int_key_error (board : Board) (move : Move) :
  (move_to_polyglot_int board move = Raise KeyError
   <-> promotion move = Some PAWN \/ promotion move = Some KING)
  /\ ((exists code, move_to_polyglot_int board move = Ok code)
      <-> legal_promotion (promotion move)).
Proof.
  unfold move_to_polyglot_int, legal_promotion.
  destruct (promotion move) as [[]|]; cbn; split; split;
    try (intros [H|H]; discriminate);
    try (intros [c H]; discriminate);
    try discriminate; try (intros [H1 H2]; congruence);
    try (intros _; split; discriminate);
    try (intros _; now eexists);
    try (intros _; now left); try (intros _; now right);
    try reflexivity.
Qed.

Lemma promotion_code_injective (p q : option PieceType) (c : Z) :
  promotion_code p = Ok c -> promotion_code q = Ok c -> p = q.
Proof. destruct p as [[]|], q as [[]|]; cbn; congruence. Qed.

(** X2: two well-formed moves with the same code have the same origin, the
    same destination and the same promotion piece (the [drop] field is not
    encoded). *)
Theorem move_to_polyglot_int_injective (board board' : Board) (m m' : Move) :
  move_wf m -> move_wf m' ->
  move_to_polyglot_int board m = move_to_polyglot_int board' m' ->
  from_square m = from_square m' /\ to_square m = to_square m'
  /\ promotion m = promotion m'.
Proof.
  intros Hm Hm' Heq.
  destruct (move_to_polyglot_int_fields board m Hm)
    as (c & p & Hc & Hp & Hto & Hfrom & Hprom & _).
  destruct (move_to_polyglot_int_fields board' m' Hm')
    as (c' & p' & Hc' & Hp' & Hto' & Hfrom' & Hprom' & _).
  rewrite Hc, Hc' in Heq. injection Heq as <-.
  repeat split; try congruence.
  apply (promotion_code_injective _ _ p); congruence.
Qed.

Lemma move_to_polyglot_int_injective_witness :
  from_square (mkMove 12 28 None None) = from_square (mkMove 12 28 None (Some PAWN))
  /\ to_square (mkMove 12 28 None None) = to_square (mkMove 12 28 None (Some PAWN))
  /\ promotion (mkMove 12 28 None None) = promotion (mkMove 12 28 None (Some PAWN)).
Proof.
  apply (move_to_polyglot_int_injective starting_board italian_board
           (mkMove 12 28 None None) (mkMove 12 28 None (Some PAWN))).
  - unfold move_wf, is_square, legal_promotion; cbn. repeat split; (lia || congruence).
  - unfold move_wf, is_square, legal_promotion; cbn. repeat split; (lia || congruence).
  - reflexivity.
Defined.

Lemma write_entries_fails (f : list byte) (good : list Entry) (bad : Entry)
    (rest : list Entry) :
  Forall (fun e => entry_in_range e = true) good ->
  entry_in_range bad = false ->
  write_entries f (good ++ bad :: rest)
  = (Raise StructError, f ++ flat_map record_bytes good).
Proof.
  intros Hgood Hbad. revert f. induction Hgood as [|e good He _ IH]; intros f; cbn.
  - unfold pack_entry. rewrite Hbad. now rewrite app_nil_r.
  - unfold pack_entry. rewrite He. rewrite IH. fold (record_bytes e).
    now rewrite <- app_assoc.
Qed.

Lemma first_out_of_range (l : list Entry) :
  Exists (fun e => entry_in_range e = false) l ->
  exists good bad rest,
    l = good ++ bad :: rest
    /\ Forall (fun e => entry_in_range e = true) good
    /\ entry_in_range bad = false.
Proof.
  induction l as [|e l IH]; intros Hex; [inversion Hex|].
  destruct (entry_in_range e) eqn:He.
  - inversion Hex as [? ? Hbad|? ? Hex']; subst; [congruence|].
    destruct (IH Hex') as (good & bad & rest & -> & Hgood & Hbad).
    exists (e :: good), bad, rest. repeat split; [now constructor|exact Hbad].
  - exists [], e, l. repeat split; [constructor|exact He].
Qed.

(** X3: when an entry does not fit the struct, [write_polyglot_bin] raises
    [struct.error] at the first such entry in key order; the records of the
    entries sorted before it are already in the file, and nothing else. *)
Theorem write_polyglot_bin_struct_error (f : list byte) (entries : list Entry) :
  Exists (fun e => entry_in_range e = false) entries ->
  exists good bad rest,
    sorted_by_key entries = good ++ bad :: rest
    /\ Forall (fun e => entry_in_range e = true) good
    /\ entry_in_range bad = false
    /\ write_polyglot_bin f entries
       = (Raise StructError, f ++ flat_map record_bytes good).
Proof.
  intros Hex.
  assert (Hex' : Exists (fun e => entry_in_range e = false) (sorted_by_key entries)).
  { rewrite Exists_exists in *. destruct Hex as (e & Hin & He). exists e. split; [|exact He].
    eapply Permutation_in; [symmetry; apply sorted_by_key_perm|exact Hin]. }
  destruct (first_out_of_range _ Hex') as (good & bad & rest & Heq & Hgood & Hbad).
  exists good, bad, rest. repeat split; try assumption.
  unfold write_polyglot_bin. rewrite Heq. now apply write_entries_fails.
Qed.

Lemma write_polyglot_bin_struct_error_witness :
  exists good bad rest,
    sorted_by_key [mkEntry 7 796 3 0; mkEntry 2 262 (-1) 0; mkEntry 1 1 0 0]
    = good ++ bad :: rest
    /\ Forall (fun e => entry_in_range e = true) good
    /\ entry_in_range bad = false
    /\ write_polyglot_bin [] [mkEntry 7 796 3 0; mkEntry 2 262 (-1) 0; mkEntry 1 1 0 0]
       = (Raise StructError, [] ++ flat_map record_bytes good).
Proof.
  apply (write_polyglot_bin_struct_error []
           [mkEntry 7 796 3 0; mkEntry 2 262 (-1) 0; mkEntry 1 1 0 0]).
  apply Exists_cons_tl, Exists_cons_hd. reflexivity.
Defined.

Lemma sorted_by_key_of_sorted (l : list Entry) :
  Sorted key_le l -> sorted_by_key l = l.
Proof.
  induction 1 as [|x l Hs IH Hhd]; [reflexivity|].
  cbn [sorted_by_key fold_right]. fold (sorted_by_key l). rewrite IH.
  destruct Hhd as [|y l' Hxy]; [reflexivity|].
  cbn [insert_by_key]. unfold key_le in Hxy.
  replace (key x <=? key y) with true by lia. reflexivity.
Qed.

(** X5: entries that already come in ascending key order are written in the
    order they come in; sorting twice changes nothing. *)
Theorem write_polyglot_bin_keeps_sorted_input (f : list byte) (entries : list Entry) :
  (Sorted key_le entries -> write_polyglot_bin f entries = write_entries f entries)
  /\ sorted_by_key (sorted_by_key entries) = sorted_by_key entries.
Proof.
  split.
  - intros Hs. unfold write_polyglot_bin. now rewrite sorted_by_key_of_sorted.
  - apply sorted_by_key_of_sorted, sorted_by_key_sorted.
Qed.

Lemma key_le_trans : Relations_1.Transitive key_le.
Proof. intros a b c. unfold key_le. lia. Qed.

Lemma sorted_perm_unique (l1 l2 : list Entry) :
  Sorted key_le l1 -> Sorted key_le l2 -> Permutation l1 l2 ->
  NoDup (map key l1) -> l1 = l2.
Proof.
  intros H1. revert l2. induction H1 as [|x l1 Hs1 IH Hhd1]; intros l2 H2 Hperm Hnd.
  - apply Permutation_nil in Hperm. now subst.
  - destruct l2 as [|y l2]; [apply Permutation_sym, Permutation_nil in Hperm; discriminate|].
    assert (S1 : StronglySorted key_le (x :: l1))
      by (apply Sorted_StronglySorted; [exact key_le_trans|now constructor]).
    assert (S2 : StronglySorted key_le (y :: l2))
      by (apply Sorted_StronglySorted; [exact key_le_trans|exact H2]).
    inversion S1 as [|? ? _ Hall1]; subst. inversion S2 as [|? ? _ Hall2]; subst.
    inversion Hnd as [|? ? Hnotin Hnd']; subst.
    assert (Hxy : x = y).
    { assert (Hy : In y (x :: l1))
        by (eapply Permutation_in; [symmetry; exact Hperm|now left]).
      destruct Hy as [Hy|Hy]; [exact Hy|].
      assert (Hx : In x (y :: l2)) by (eapply Permutation_in; [exact Hperm|now left]).
      destruct Hx as [Hx|Hx]; [now symmetry|].
      rewrite Forall_forall in Hall1, Hall2.
      pose proof (Hall1 y Hy) as Hle1. pose proof (Hall2 x Hx) as Hle2.
      unfold key_le in Hle1, Hle2.
      exfalso. apply Hnotin. replace (key x) with (key y) by lia.
      now apply in_map. }
    subst y. f_equal. apply IH; [now inversion H2| |exact Hnd'].
    eapply Permutation_cons_inv. exact Hperm.
Qed.

(** X4: when no two entries share a key, the file does not depend on the
    order in which the entries were collected. *)
Theorem write_polyglot_bin_order_independent (f : list byte) (entries entries' : list Entry) :
  Permutation entries entries' ->
  NoDup (map key entries) ->
  write_polyglot_bin f entries = write_polyglot_bin f entries'.
Proof.
  intros Hperm Hnd. unfold write_polyglot_bin. f_equal.
  apply sorted_perm_unique; try apply sorted_by_key_sorted.
  - rewrite sorted_by_key_perm, Hperm. symmetry. apply sorted_by_key_perm.
  - eapply Permutation_NoDup; [|exact Hnd].
    apply Permutation_map. symmetry. apply sorted_by_key_perm.
Qed.

Lemma write_polyglot_bin_order_independent_witness :
  write_polyglot_bin [] [mkEntry 7 796 3 0; mkEntry 2 262 5 0]
  = write_polyglot_bin [] [mkEntry 2 262 5 0; mkEntry 7 796 3 0].
Proof.
  apply (write_polyglot_bin_order_independent []
           [mkEntry 7 796 3 0; mkEntry 2 262 5 0] [mkEntry 2 262 5 0; mkEntry 7 796 3 0]).
  - apply perm_swap.
  - repeat constructor; cbn; intuition discriminate.
Defined.

(** ** Reading the engine *)

Lemma lines_of_nil (s : string) : lines_of s = [] -> s = EmptyString.
Proof.
  destruct s as [|c s]; [reflexivity|]. cbn.
  destruct (Ascii.eqb c newline); [discriminate|].
  destruct (lines_of s); discriminate.
Qed.

Lemma join_lines_of (s : string) : join (lines_of s) = s.
Proof.
  induction s as [|c s IH]; [reflexivity|]. cbn [lines_of].
  destruct (Ascii.eqb c newline).
  - unfold join in *. cbn. now rewrite IH.
  - destruct (lines_of s) as [|l ls] eqn:Hl.
    + apply lines_of_nil in Hl. now subst.
    + unfold join in *. cbn in *. now rewrite IH.
Qed.

Lemma split_line_app (s : string) :
  s = (fst (split_line s) ++ snd (split_line s))%string.
Proof.
  induction s as [|c s IH]; [reflexivity|]. cbn [split_line].
  destruct (Ascii.eqb c newline); [reflexivity|].
  destruct (split_line s) as [l r]. cbn in *. now rewrite <- IH.
Qed.

(** One [readline()] on a stream whose lines are [line :: tail]. *)
Lemma readline_step (self : Leela) (line : string) (tail : list string) :
  lines_of (stdout self) = line :: tail ->
  readline self = (line, {| stdin := stdin self; stdout := join tail |})
  /\ line <> EmptyString
  /\ newline_only_last line = true
  /\ stdout self = (line ++ join tail)%string
  /\ (String.length (join tail) < String.length (stdout self))%nat
  /\ lines_of (join tail) = tail.
Proof.
  intros Hlines. unfold readline.
  destruct (stdout self) as [|c s] eqn:Hout; [discriminate|].
  destruct (split_line_fst_snd (String c s)) as [Hl Hlen]; [discriminate|].
  pose proof (split_line_shape (String c s)) as Hshape.
  pose proof (split_line_app (String c s)) as Happ.
  rewrite Hlines in Hl.
  destruct (split_line (String c s)) as [l r] eqn:Hsplit. cbn [fst snd] in *.
  injection Hl as -> ->. rewrite join_lines_of.
  repeat split; try assumption; try reflexivity.
  cbn [split_line] in Hsplit. destruct (Ascii.eqb c newline).
  - injection Hsplit as <- _. discriminate.
  - destruct (split_line s). injection Hsplit as <- _. discriminate.
Qed.

Lemma clear_buffer_reads (pre : list string) :
  Forall (fun x => contains "bestmove" x = false) pre ->
  forall fuel self l rest,
    lines_of (stdout self) = pre ++ l :: rest ->
    contains "bestmove" l = true ->
    (String.length (stdout self) < fuel)%nat ->
    clear_buffer fuel self = (Ok tt, {| stdin := stdin self; stdout := join rest |}).
Proof.
  induction 1 as [|x pre Hx _ IH]; intros fuel self l rest Hlines Hl Hfuel;
    (destruct fuel as [|fuel]; [lia|]); cbn [app] in Hlines;
    destruct (readline_step self _ _ Hlines) as (Hread & Hne & _ & _ & Hlen & Htail);
    cbn [clear_buffer]; rewrite Hread.
  - destruct l; [congruence|]. now rewrite Hl.
  - destruct x; [congruence|]. rewrite Hx.
    rewrite (IH fuel {| stdin := stdin self; stdout := join (pre ++ l :: rest) |} l rest);
      [reflexivity|exact Htail|exact Hl|cbn; lia].
Qed.

Lemma clear_buffer_dies (ls : list string) :
  Forall (fun x => contains "bestmove" x = false) ls ->
  forall fuel self,
    lines_of (stdout self) = ls ->
    (String.length (stdout self) < fuel)%nat ->
    clear_buffer fuel self = (Raise ValueError, {| stdin := stdin self; stdout := EmptyString |}).
Proof.
  induction 1 as [|x ls Hx _ IH]; intros fuel self Hlines Hfuel;
    (destruct fuel as [|fuel]; [lia|]).
  - apply lines_of_nil in Hlines. cbn [clear_buffer]. unfold readline.
    rewrite Hlines. reflexivity.
  - destruct (readline_step self _ _ Hlines) as (Hread & Hne & _ & _ & Hlen & Htail).
    cbn [clear_buffer]. rewrite Hread. destruct x; [congruence|]. rewrite Hx.
    rewrite (IH fuel {| stdin := stdin self; stdout := join ls |});
      [reflexivity|exact Htail|cbn; lia].
Qed.

(** X6: the reader loop reads up to and including the first line that
    contains [bestmove] and returns; the lines after it are left for the
    probes. *)
Theorem clear_buffer_stops_at_bestmove (fuel : nat) (self : Leela)
    (pre : list string) (l : string) (rest : list string) :
  lines_of (stdout self) = pre ++ l :: rest ->
  Forall (fun x => contains "bestmove" x = false) pre ->
  contains "bestmove" l = true ->
  (String.length (stdout self) < fuel)%nat ->
  clear_buffer fuel self = (Ok tt, {| stdin := stdin self; stdout := join rest |}).
Proof. intros Hlines Hpre Hl Hfuel. now apply (clear_buffer_reads pre Hpre fuel self l rest). Qed.

(** X7: when the output of the engine ends and no line contained
    [bestmove], the reader loop raises [ValueError], having read everything. *)
Theorem clear_buffer_raises_at_end_of_stream (fuel : nat) (self : Leela) :
  Forall (fun x => contains "bestmove" x = false) (lines_of (stdout self)) ->
  (String.length (stdout self) < fuel)%nat ->
  clear_buffer fuel self = (Raise ValueError, {| stdin := stdin self; stdout := EmptyString |}).
Proof. intros Hall Hfuel. now apply (clear_buffer_dies _ Hall). Qed.

(** X8: a search that is started and stopped writes the three commands, in
    order, and leaves of the engine output what follows the first line with
    [bestmove]. *)
Theorem stop_leaves_dump (self : Leela) (pre : list string) (l : string)
    (rest : list string) :
  lines_of (stdout self) = pre ++ l :: rest ->
  Forall (fun x => contains "bestmove" x = false) pre ->
  contains "bestmove" l = true ->
  stop (launch self)
  = {| stdin := (((stdin self ++ "position startpos" ++ line_end)
                   ++ "go infinite" ++ line_end) ++ "stop" ++ line_end)%string;
       stdout := join rest |}.
Proof.
  intros Hlines Hpre Hl. unfold stop, launch.
  rewrite (clear_buffer_reads pre Hpre _ _ l rest); [reflexivity|exact Hlines|exact Hl|].
  cbn [send stdout]. lia.
Qed.

Section ReadingTheorems.
Context `{ChessLib}.


Lemma probe_loop_reads (ls : list string) (ps : list (Move * Z)) :
  Forall2 (fun l p => sentinel l = false /\ parse_line l = Ok p) ls ps ->
  forall fuel children self sent rest,
    lines_of (stdout self) = ls ++ sent :: rest ->
    sentinel sent = true ->
    (String.length (stdout self) < fuel)%nat ->
    probe_loop fuel children self
    = (Ok (build_dict ps children), {| stdin := stdin self; stdout := join rest |}).
Proof.
  induction 1 as [|l p ls ps [Hs Hp] _ IH]; intros fuel children self sent rest Hlines Hsent Hfuel;
    (destruct fuel as [|fuel]; [lia|]); cbn [app] in Hlines;
    destruct (readline_step self _ _ Hlines) as (Hread & _ & _ & _ & Hlen & Htail);
    cbn [probe_loop]; rewrite Hread.
  - unfold sentinel in Hsent. now rewrite Hsent.
  - unfold sentinel in Hs. rewrite Hs, Hp. destruct p as [move visits].
    rewrite (IH fuel (dict_set children move visits)
               {| stdin := stdin self; stdout := join (ls ++ sent :: rest) |} sent rest);
      [reflexivity|exact Htail|exact Hsent|cbn; lia].
Qed.

Lemma probe_reads (moves : list Move) (ucis : list string) (self : Leela)
    (ls : list string) (ps : list (Move * Z)) (sent : string) (rest : list string) :
  mapM uci moves = Ok ucis ->
  lines_of (stdout self) = ls ++ sent :: rest ->
  Forall2 (fun l p => sentinel l = false /\ parse_line l = Ok p) ls ps ->
  sentinel sent = true ->
  probe moves self
  = (Ok (build_dict ps []),
     {| stdin := (stdin self ++ dumpnode_command ucis)%string; stdout := join rest |}).
Proof.
  intros Hm Hlines Hall Hsent. unfold probe. rewrite Hm.
  rewrite (probe_loop_reads ls ps Hall _ [] (send (dumpnode_command ucis) self) sent rest);
    [reflexivity|exact Hlines|exact Hsent|cbn [send stdout]; lia].
Qed.

(** X10: when the engine output starts with lines that parse, none of them
    with the end marker, and then a line with the end marker, [probe]
    returns the dictionary of their moves and counts, assigned in the order
    of the lines, and leaves the output after the line with the end marker.
    That line is not parsed. *)
Theorem probe_reads_dump (moves : list Move) (ucis : list string) (self : Leela)
    (ls : list string) (ps : list (Move * Z)) (sent : string) (rest : list string) :
  mapM uci moves = Ok ucis ->
  lines_of (stdout self) = ls ++ sent :: rest ->
  Forall2 (fun l p => sentinel l = false /\ parse_line l = Ok p) ls ps ->
  sentinel sent = true ->
  probe moves self
  = (Ok (build_dict ps []),
     {| stdin := (stdin self ++ dumpnode_command ucis)%string; stdout := join rest |}).
Proof. apply probe_reads. Qed.

Lemma getitem_dict_set (d : dict) (k : Move) (v : Z) (m : Move) :
  getitem (dict_set d k v) m = if Move_eqb m k then Ok v else getitem d m.
Proof.
  induction d as [|[k0 v0] d IH]; [reflexivity|]. cbn [dict_set].
  destruct (Move_eqb k k0) eqn:Hk; cbn [getitem].
  - apply Move_eqb_eq in Hk. subst k0. now destruct (Move_eqb m k).
  - rewrite IH. destruct (Move_eqb m k0) eqn:Hm0; [|reflexivity].
    destruct (Move_eqb m k) eqn:Hmk; [|reflexivity].
    apply Move_eqb_eq in Hm0, Hmk. subst. rewrite Move_eqb_refl in Hk. discriminate.
Qed.

Lemma getitem_build_dict (ps : list (Move * Z)) (d : dict) (m : Move) :
  getitem (build_dict ps d) m
  = match last_visits ps m with
    | Some v => Ok v
    | None => getitem d m
    end.
Proof.
  revert d. induction ps as [|[k v] ps IH]; intros d; [reflexivity|].
  unfold build_dict in *. cbn [fold_left fst snd last_visits].
  rewrite IH. destruct (last_visits ps m); [reflexivity|].
  rewrite getitem_dict_set. now destruct (Move_eqb m k).
Qed.

(** X11: in the dictionary [probe] returns, a move has the count of the last
    line that named it, and a move that no line named is not a key. *)
Theorem probe_later_line_wins (moves : list Move) (ucis : list string) (self : Leela)
    (ls : list string) (ps : list (Move * Z)) (sent : string) (rest : list string) :
  mapM uci moves = Ok ucis ->
  lines_of (stdout self) = ls ++ sent :: rest ->
  Forall2 (fun l p => sentinel l = false /\ parse_line l = Ok p) ls ps ->
  sentinel sent = true ->
  exists d self',
    probe moves self = (Ok d, self')
    /\ forall m, getitem d m
                 = match last_visits ps m with
                   | Some v => Ok v
                   | None => Raise KeyError
                   end.
Proof.
  intros Hm Hlines Hall Hsent. do 2 eexists.
  split; [now apply (probe_reads moves ucis self ls ps sent rest)|].
  intros m. now rewrite getitem_build_dict.
Qed.

End ReadingTheorems.

(** ** What a parsed line looks like *)

Lemma starts_with_split (pfx s : string) :
  starts_with pfx s = true -> s = (pfx ++ drop_chars (String.length pfx) s)%string.
Proof.
  revert s. induction pfx as [|a pfx IH]; intros s Hs; [reflexivity|].
  destruct s as [|b s]; [discriminate|].
  apply starts_with_cons in Hs. destruct Hs as [-> Hs]. cbn. now rewrite <- IH.
Qed.

Lemma non_spaces_split (t : string) :
  exists r, t = (non_spaces t ++ r)%string
            /\ has_char space (non_spaces t) = false
            /\ (r = EmptyString \/ exists r', r = String space r').
Proof.
  induction t as [|c t (r & Ht & Hno & Hr)].
  - exists EmptyString. repeat split. now left.
  - cbn [non_spaces]. destruct (Ascii.eqb c space) eqn:Hc.
    + apply Ascii.eqb_eq in Hc. subst c. exists (String space t).
      repeat split. right. now eexists.
    + exists r. split; [cbn [append]; now rewrite <- Ht|].
      split; [|exact Hr]. cbn [has_char]. now rewrite Ascii.eqb_sym, Hc.
Qed.

Lemma match_here_some (pfx s g : string) :
  match_here pfx s = Some g ->
  exists rest,
    s = (pfx ++ g ++ rest)%string /\ g <> EmptyString
    /\ has_char space g = false
    /\ (rest = EmptyString \/ exists r, rest = String space r).
Proof.
  unfold match_here. destruct (starts_with pfx s) eqn:Hs; [|discriminate].
  apply starts_with_split in Hs.
  destruct (non_spaces_split (drop_chars (String.length pfx) s)) as (r & Ht & Hno & Hr).
  destruct (non_spaces (drop_chars (String.length pfx) s)) as [|c g'] eqn:Hg; [discriminate|].
  intros Heq. injection Heq as <-. exists r.
  repeat split; try assumption; try discriminate.
  rewrite Hs at 1. now rewrite Ht at 1.
Qed.

Lemma re_search_some (pfx s g : string) :
  re_search pfx s = Some g ->
  exists a rest,
    s = (a ++ pfx ++ g ++ rest)%string /\ g <> EmptyString
    /\ has_char space g = false
    /\ (rest = EmptyString \/ exists r, rest = String space r).
Proof.
  induction s as [|c s IH]; cbn [re_search].
  - destruct (match_here pfx EmptyString) as [g0|] eqn:Hm; [|discriminate].
    intros Heq. injection Heq as ->.
    destruct (match_here_some _ _ _ Hm) as (rest & Hs & Hrest). now exists EmptyString, rest.
  - destruct (match_here pfx (String c s)) as [g0|] eqn:Hm.
    + intros Heq. injection Heq as ->.
      destruct (match_here_some _ _ _ Hm) as (rest & Hs & Hrest). now exists EmptyString, rest.
    + intros Hr. destruct (IH Hr) as (a & rest & Hs & Hrest).
      exists (String c a), rest. cbn. now rewrite <- Hs.
Qed.

Lemma all_chars_app (p : ascii -> bool) (a b : string) :
  all_chars p (a ++ b) = all_chars p a && all_chars p b.
Proof. induction a as [|c a IH]; [reflexivity|]. cbn. now rewrite IH, andb_assoc. Qed.

Lemma digit_value_char (c : ascii) (d : Z) :
  digit_value c = Some d -> int_char c = true /\ 0 <= d /\ Ascii.eqb c "-" = false.
Proof.
  destruct c as [[] [] [] [] [] [] [] []]; cbn; intros Hd; try discriminate;
    injection Hd as <-; repeat split; lia.
Qed.

Lemma digits_value_chars (s : string) (acc : Z) (b : bool) (v : Z) :
  digits_value acc b s = Some v ->
  all_chars int_char s = true /\ has_char "-" s = false /\ (0 <= acc -> 0 <= v).
Proof.
  revert acc b. induction s as [|c s IH]; intros acc b; cbn [digits_value].
  - destruct b; [|discriminate]. intros Heq. injection Heq as <-. now repeat split.
  - destruct (digit_value c) as [d|] eqn:Hd.
    + apply digit_value_char in Hd. destruct Hd as (Hc & Hd & Hm).
      intros Hv. destruct (IH _ _ Hv) as (Hall & Hno & Hpos).
      cbn [all_chars has_char]. rewrite Hc, Hall, Hno. rewrite Ascii.eqb_sym, Hm.
      repeat split. intros Hacc. apply Hpos. lia.
    + destruct (Ascii.eqb c "_" && b) eqn:Hu; [|discriminate].
      apply andb_true_iff in Hu. destruct Hu as [Hu _].
      apply Ascii.eqb_eq in Hu. subst c.
      intros Hv. destruct (IH _ _ Hv) as (Hall & Hno & Hpos).
      cbn [all_chars has_char]. rewrite Hall, Hno. now repeat split.
Qed.

Lemma py_int_chars (g : string) (v : Z) :
  py_int g = Ok v ->
  all_chars int_char g = true /\ (starts_with "-" g = false -> 0 <= v).
Proof.
  unfold py_int.
  destruct g as [|c g]; [discriminate|].
  destruct (Ascii.eqb c "-") eqn:Hminus.
  - apply Ascii.eqb_eq in Hminus. subst c.
    destruct (digits_value 0 false g) as [w|] eqn:Hd; [|discriminate].
    intros _. destruct (digits_value_chars _ _ _ _ Hd) as (Hall & _).
    split; [cbn; now rewrite Hall|]. cbn. discriminate.
  - destruct (Ascii.eqb c "+") eqn:Hplus.
    + apply Ascii.eqb_eq in Hplus. subst c.
      destruct (digits_value 0 false g) as [w|] eqn:Hd; [|discriminate].
      intros Heq. injection Heq as <-.
      destruct (digits_value_chars _ _ _ _ Hd) as (Hall & _ & Hpos).
      split; [cbn; now rewrite Hall|]. intros _. apply Hpos. lia.
    + assert (Hsame : match String c g with
                      | String "-" s' => option_map Z.opp (digits_value 0 false s')
                      | String "+" s' => digits_value 0 false s'
                      | _ => digits_value 0 false (String c g)
                      end = digits_value 0 false (String c g)).
      { destruct c as [[] [] [] [] [] [] [] []]; try reflexivity; discriminate. }
      rewrite Hsame.
      destruct (digits_value 0 false (String c g)) as [w|] eqn:Hd; [|discriminate].
      intros Heq. injection Heq as <-.
      destruct (digits_value_chars _ _ _ _ Hd) as (Hall & _ & Hpos).
      split; [exact Hall|]. intros _. apply Hpos. lia.
Qed.

Lemma int_char_plain (c : ascii) : int_char c = true -> plain_char c = true.
Proof. destruct c as [[] [] [] [] [] [] [] []]; cbn; intros Hc; try discriminate; reflexivity. Qed.

Lemma all_chars_int_plain (g : string) : all_chars int_char g = true -> all_plain g = true.
Proof.
  induction g as [|c g IH]; [reflexivity|]. cbn. intros Hg.
  apply andb_true_iff in Hg. destruct Hg as [Hc Hg].
  now rewrite (int_char_plain c Hc), IH.
Qed.

Lemma all_plain_app (a b : string) : all_plain (a ++ b) = all_plain a && all_plain b.
Proof. induction a as [|c a IH]; [reflexivity|]. cbn. now rewrite IH, andb_assoc. Qed.

Lemma repr_body_ends (q : ascii) (b : string) :
  exists y, repr_body q b = (y ++ String q EmptyString)%string.
Proof.
  induction b as [|c b [y Hy]]; [now exists EmptyString|].
  exists (repr_byte q c ++ y)%string. cbn [repr_body]. rewrite Hy.
  apply string_app_assoc.
Qed.

Lemma suffix_last (y z g : string) (q : ascii) :
  (y ++ String q EmptyString = z ++ g)%string -> g <> EmptyString ->
  exists g', g = (g' ++ String q EmptyString)%string.
Proof.
  revert z. induction y as [|c y IH]; intros z Heq Hg.
  - destruct z as [|d z]; cbn in Heq.
    + exists EmptyString. now subst.
    + injection Heq as _ Heq. destruct z; destruct g; cbn in Heq; congruence.
  - destruct z as [|d z]; cbn in Heq.
    + exists (String c y). now subst.
    + injection Heq as _ Heq. now apply (IH z).
Qed.

Lemma string_app_nil_r (a : string) : (a ++ EmptyString)%string = a.
Proof. induction a as [|c a IH]; [reflexivity|]. cbn. now rewrite IH. Qed.

Lemma starts_with_app (pat r : string) : starts_with pat (pat ++ r) = true.
Proof. induction pat as [|c pat IH]; [reflexivity|]. cbn. now rewrite Ascii.eqb_refl. Qed.

Lemma starts_with_more (pat s b : string) :
  starts_with pat s = true -> starts_with pat (s ++ b) = true.
Proof.
  revert s. induction pat as [|c pat IH]; intros s Hs; [reflexivity|].
  destruct s as [|d s]; [discriminate|]. cbn in *.
  apply andb_true_iff in Hs. destruct Hs as [Hc Hs]. now rewrite Hc, IH.
Qed.

Lemma contains_more (pat s b : string) :
  pat <> EmptyString -> contains pat s = true -> contains pat (s ++ b) = true.
Proof.
  intros Hpat. induction s as [|c s IH]; intros Hc.
  - destruct pat; [congruence|discriminate].
  - cbn [append]. rewrite contains_cons in *. apply orb_true_iff in Hc.
    destruct Hc as [Hc|Hc].
    + change (String c (s ++ b)) with (String c s ++ b)%string.
      now rewrite (starts_with_more _ _ _ Hc).
    + rewrite (IH Hc). apply orb_true_r.
Qed.

Lemma contains_after (pat a s : string) :
  contains pat s = true -> contains pat (a ++ s) = true.
Proof.
  intros Hs. induction a as [|c a IH]; [exact Hs|].
  cbn [append]. rewrite contains_cons, IH. apply orb_true_r.
Qed.

Lemma starts_with_shorter (p q s : string) :
  starts_with (p ++ q) s = true -> starts_with p s = true.
Proof.
  revert s. induction p as [|c p IH]; intros s Hs; [reflexivity|].
  destruct s as [|d s]; [discriminate|]. cbn in *.
  apply andb_true_iff in Hs. destruct Hs as [Hc Hs]. now rewrite Hc, (IH s Hs).
Qed.

Lemma contains_shorter (p q s : string) :
  contains (p ++ q) s = true -> contains p s = true.
Proof.
  induction s as [|c s IH]; intros Hs.
  - cbn in *. now apply (starts_with_shorter p q).
  - rewrite contains_cons in *. apply orb_true_iff in Hs. destruct Hs as [Hs|Hs].
    + now rewrite (starts_with_shorter p q _ Hs).
    + rewrite (IH Hs). apply orb_true_r.
Qed.

Lemma contains_of_starts_with (pat s : string) :
  starts_with pat s = true -> contains pat s = true.
Proof. destruct s; cbn; intros ->; reflexivity. Qed.

Lemma lines_of_shape (s : string) :
  Forall (fun l => newline_only_last l = true) (lines_of s).
Proof.
  induction s as [|c s IH]; [constructor|]. cbn [lines_of].
  destruct (Ascii.eqb c newline) eqn:Hc.
  - constructor; [cbn; now rewrite Hc|exact IH].
  - destruct (lines_of s) as [|l ls]; constructor.
    + cbn. now rewrite Hc.
    + constructor.
    + inversion IH; subst. cbn [newline_only_last]. rewrite Hc. cbn. assumption.
    + now inversion IH.
Qed.

Lemma join_in (l : string) (ls : list string) :
  In l ls -> exists a b, join ls = (a ++ l ++ b)%string.
Proof.
  induction ls as [|x ls IH]; [contradiction|].
  intros [->|Hin].
  - exists EmptyString, (join ls). reflexivity.
  - destruct (IH Hin) as (a & b & Heq). exists (x ++ a)%string, b.
    unfold join in *. cbn [fold_right]. rewrite Heq. apply string_app_assoc.
Qed.

(** A line of a stream is part of the stream. *)
Lemma lines_of_in (s line : string) :
  In line (lines_of s) ->
  newline_only_last line = true
  /\ (forall pat, pat <> EmptyString -> contains pat line = true -> contains pat s = true).
Proof.
  intros Hin. split.
  - pose proof (lines_of_shape s) as Hall. rewrite Forall_forall in Hall. now apply Hall.
  - intros pat Hpat Hc. destruct (join_in _ _ Hin) as (a & b & Heq).
    rewrite join_lines_of in Heq. rewrite Heq.
    apply contains_after. now apply contains_more.
Qed.

Section ParsedLines.
Context `{ChessLib}.

(** A line is accepted only when its count is followed by a space: the text
    searched is the repr of the line, which ends with a quote. *)
Lemma parse_line_count (line : string) (move : Move) (visits : Z) :
  newline_only_last line = true ->
  parse_line line = Ok (move, visits) ->
  (exists u, from_uci u = Some move)
  /\ exists g, py_int g = Ok visits /\ contains ("n=" ++ g ++ " ") line = true.
Proof.
  intros Hline. unfold parse_line.
  destruct (re_search "move=" (py_str_bytes line)) as [u|]; [|discriminate].
  destruct (from_uci u) as [m|] eqn:Hu; [|discriminate].
  destruct (re_search "n=" (py_str_bytes line)) as [g|] eqn:Hn; [|discriminate].
  destruct (py_int g) as [v| |] eqn:Hg; cbn [bind]; try discriminate.
  intros Heq. injection Heq as -> ->.
  split; [now exists u|]. exists g. split; [exact Hg|].
  destruct (py_int_chars g visits Hg) as [Hchars _].
  destruct (re_search_some _ _ _ Hn) as (a & rest & Htext & Hne & _ & Hrest).
  assert (Hok : token_prefix_ok ("n=" ++ g ++ " ") = true).
  { unfold token_prefix_ok. cbn [append all_plain].
    rewrite all_plain_app, (all_chars_int_plain g Hchars). reflexivity. }
  destruct (contains ("n=" ++ g ++ " ") line) eqn:Hc; [reflexivity|].
  pose proof (contains_py_str_bytes _ _ Hok Hline Hc) as Hno.
  destruct Hrest as [->|[r ->]].
  - exfalso. unfold py_str_bytes in Htext.
    set (q := if has_char squote line && negb (has_char dquote line) then dquote else squote)
      in Htext.
    destruct (repr_body_ends q line) as [y Hy]. rewrite Hy in Htext.
    assert (Hsuf : exists g', g = (g' ++ String q EmptyString)%string).
    { apply (suffix_last (String "b" (String q y)) (a ++ "n=")%string); [|exact Hne].
      change (String "b" (String q y) ++ String q EmptyString)%string
        with (String "b" (String q (y ++ String q EmptyString))).
      rewrite Htext, string_app_nil_r. exact (string_app_assoc a "n="%string g). }
    destruct Hsuf as [g' ->]. rewrite all_chars_app in Hchars.
    apply andb_true_iff in Hchars. destruct Hchars as [_ Hq]. cbn in Hq.
    subst q. destruct (has_char squote line && negb (has_char dquote line)); discriminate.
  - rewrite Htext in Hno. rewrite contains_after in Hno; [discriminate|].
    apply contains_of_starts_with.
    replace ("n=" ++ g ++ String space r)%string
      with (("n=" ++ g ++ " ") ++ r)%string.
    + apply starts_with_app.
    + rewrite <- (string_app_assoc "n="%string), <- (string_app_assoc g). reflexivity.
Qed.

Lemma dict_set_in (d : dict) (k : Move) (v : Z) (m : Move) (w : Z) :
  In (m, w) (dict_set d k v) -> (m, w) = (k, v) \/ In (m, w) d.
Proof.
  induction d as [|[k0 v0] d IH]; cbn.
  - intros [Heq|[]]. left. congruence.
  - destruct (Move_eqb k k0) eqn:Hk; cbn.
    + apply Move_eqb_eq in Hk. subst k0. intros [Heq|Hin]; [left; congruence|right; now right].
    + intros [Heq|Hin]; [right; now left|].
      destruct (IH Hin) as [Heq|Hin']; [now left|right; now right].
Qed.

(** Every pair of the dictionary comes from a line that was read. *)
Lemma probe_loop_provenance (fuel : nat) (children : dict) (self : Leela)
    (d : dict) (self' : Leela) :
  probe_loop fuel children self = (Ok d, self') ->
  forall m v, In (m, v) d ->
    In (m, v) children
    \/ exists line, In line (lines_of (stdout self)) /\ parse_line line = Ok (m, v).
Proof.
  revert children self. induction fuel as [|fuel IH]; intros children self; [discriminate|].
  cbn [probe_loop]. unfold readline.
  destruct (stdout self) as [|c s] eqn:Hout.
  - cbn. discriminate.
  - destruct (split_line_fst_snd (String c s)) as [Hlines _]; [discriminate|].
    destruct (split_line (String c s)) as [line rest]. cbn [fst snd] in Hlines.
    destruct (contains "end-dump" line).
    + intros Heq. injection Heq as <- _. intros m v Hin. now left.
    + destruct (parse_line line) as [[move visits]|e|] eqn:Hparse; try discriminate.
      intros Hloop m v Hin.
      destruct (IH _ _ Hloop m v Hin) as [Hd|(l & Hl & Hp)].
      * destruct (dict_set_in _ _ _ _ _ Hd) as [Heq|Hc]; [|now left].
        injection Heq as -> ->. right. exists line. rewrite Hlines. split; [now left|exact Hparse].
      * right. exists l. rewrite Hlines. split; [now right|exact Hp].
Qed.

Lemma probe_provenance (moves : list Move) (self : Leela) (d : dict) (self' : Leela) :
  probe moves self = (Ok d, self') ->
  forall m v, In (m, v) d ->
    exists line, In line (lines_of (stdout self)) /\ parse_line line = Ok (m, v).
Proof.
  unfold probe. destruct (mapM uci moves) as [ucis| |]; try discriminate.
  intros Hloop m v Hin.
  destruct (probe_loop_provenance _ _ _ _ _ Hloop m v Hin) as [[]|Hl].
  exact Hl.
Qed.

(** X12: a count gets into the result of [probe] only from a place of the
    engine output where the text of the count, right after [n=], is followed
    by a space; a count that ends its line is not accepted. *)
Theorem probe_counts_are_followed_by_space (moves : list Move) (self : Leela)
    (d : dict) (self' : Leela) :
  probe moves self = (Ok d, self') ->
  forall m v, In (m, v) d ->
    exists g, py_int g = Ok v /\ contains ("n=" ++ g ++ " ") (stdout self) = true.
Proof.
  intros Hp m v Hin.
  destruct (probe_provenance _ _ _ _ Hp m v Hin) as (line & Hl & Hparse).
  destruct (lines_of_in _ _ Hl) as [Hshape Hsub].
  destruct (parse_line_count line m v Hshape Hparse) as [_ (g & Hg & Hc)].
  exists g. split; [exact Hg|]. apply Hsub; [discriminate|exact Hc].
Qed.

End ParsedLines.

(** ** More on the traversal *)

Section MoreExplore.
Context `{ChessLib}.

Lemma getitem_in_weak (d : dict) (k : Move) (v : Z) : getitem d k = Ok v -> In (k, v) d.
Proof.
  induction d as [|[k0 v0] d IH]; cbn; [discriminate|].
  destruct (Move_eqb k k0) eqn:Hk.
  - apply Move_eqb_eq in Hk. subst k0. intros Heq. injection Heq as ->. now left.
  - intros Hg. right. now apply IH.
Qed.

(** What [best_entry] returns when it returns. *)
Lemma best_entry_shape (board : Board) (children : dict) (e : Entry) :
  best_entry board children = Ok e ->
  exists best visits code,
    In (best, visits) children
    /\ move_to_polyglot_int board best = Ok code
    /\ e = {| key := zobrist_hash board; raw_move := code;
              weight := Z.min 65535 (visits / 256); learn := 0 |}.
Proof.
  unfold best_entry.
  destruct (py_max (getitem children) (dict_keys children)) as [best| |]; try discriminate.
  cbn [bind]. destruct (getitem children best) as [visits| |] eqn:Hg; try discriminate.
  cbn [bind]. unfold make_entry.
  destruct (move_to_polyglot_int board best) as [code| |] eqn:Hc; try discriminate.
  cbn [bind]. intros Heq. injection Heq as <-.
  exists best, visits, code. repeat split; [now apply getitem_in_weak|exact Hc].
Qed.

Lemma explore_children_inv (Pl : Leela -> Prop) (inv : Entry -> Prop) recurse
    board moves th items :
  (forall l es b ms t, Pl l -> Forall inv es ->
      Pl (leela_of (recurse l es b ms t)) /\ Forall inv (snd (recurse l es b ms t))) ->
  forall leela entries, Pl leela -> Forall inv entries ->
    Pl (leela_of (explore_children recurse board moves th items leela entries))
    /\ Forall inv (snd (explore_children recurse board moves th items leela entries)).
Proof.
  intros Hrec. induction items as [|[move visits] items IH]; intros leela entries Hl He.
  - now split.
  - cbn [explore_children]. destruct (visits <? th); [now apply IH|].
    destruct (negb (is_legal board move)); [now split|].
    destruct (Hrec leela entries (push board move) (moves ++ [move]) th Hl He) as [Hl' He'].
    destruct (recurse leela entries (push board move) (moves ++ [move]) th)
      as [[o l'] es']. unfold leela_of in *. cbn [fst snd] in *.
    destruct o as [[]| |]; try (now split). now apply IH.
Qed.

Lemma explore_tree_inv (Pl : Leela -> Prop) (inv : Entry -> Prop) :
  (forall moves l r l', probe moves l = (r, l') -> Pl l ->
      Pl l' /\ forall children board e,
                 r = Ok children -> best_entry board children = Ok e -> inv e) ->
  forall fuel leela entries board moves th, Pl leela -> Forall inv entries ->
    Pl (leela_of (explore_tree fuel leela entries board moves th))
    /\ Forall inv (snd (explore_tree fuel leela entries board moves th)).
Proof.
  intros Hprobe. induction fuel as [|fuel IH]; intros leela entries board moves th Hl He.
  - now split.
  - cbn [explore_tree].
    destruct (probe moves leela) as [r leela1] eqn:Hp.
    destruct (Hprobe _ _ _ _ Hp Hl) as [Hl1 Hbest].
    destruct r as [children| |]; try (now split).
    destruct children as [|c children]; [now split|].
    destruct (best_entry board (c :: children)) as [entry| |] eqn:Hb; try (now split).
    apply explore_children_inv; [intros; now apply IH|exact Hl1|].
    apply Forall_app. split; [exact He|]. constructor; [|constructor].
    now apply (Hbest (c :: children) board).
Qed.

(** X14: the entries passed in have no influence on the run and are kept, in
    their order, before the entries the run adds. *)
Theorem explore_tree_keeps_entries (fuel : nat) leela entries board moves th :
  explore_tree fuel leela entries board moves th
  = with_prefix entries (explore_tree fuel leela [] board moves th).
Proof. apply explore_tree_frame. Qed.

(** X15: every entry that a run adds has learn 0 and a weight of at most
    65535, whether the run returns or raises. *)
Theorem explore_tree_added_entries (fuel : nat) leela entries board moves th :
  exists added,
    snd (explore_tree fuel leela entries board moves th) = entries ++ added
    /\ Forall (fun e => learn e = 0 /\ weight e <= 65535) added.
Proof.
  exists (snd (explore_tree fuel leela [] board moves th)). split.
  - rewrite (explore_tree_frame fuel leela entries).
    now destruct (explore_tree fuel leela [] board moves th) as [[o l] es].
  - apply (explore_tree_inv (fun _ => True) (fun e => learn e = 0 /\ weight e <= 65535));
      [|exact I|constructor].
    intros ms l r l' _ _. split; [exact I|].
    intros children b e _ Hb.
    destruct (best_entry_shape _ _ _ Hb) as (best & visits & code & _ & _ & ->).
    cbn. split; [reflexivity|lia].
Qed.

Lemma explore_children_agree r1 r2 board moves th items :
  (forall l es b ms t, outcome_of (r1 l es b ms t) <> OutOfFuel ->
      r2 l es b ms t = r1 l es b ms t) ->
  forall leela entries,
    outcome_of (explore_children r1 board moves th items leela entries) <> OutOfFuel ->
    explore_children r2 board moves th items leela entries
    = explore_children r1 board moves th items leela entries.
Proof.
  intros Hagree. induction items as [|[move visits] items IH]; intros leela entries Hout.
  - reflexivity.
  - cbn [explore_children] in *. destruct (visits <? th); [now apply IH|].
    destruct (negb (is_legal board move)); [reflexivity|].
    pose proof (Hagree leela entries (push board move) (moves ++ [move]) th) as Ha.
    destruct (r1 leela entries (push board move) (moves ++ [move]) th)
      as [[o l'] es'] eqn:Hr1.
    destruct o as [[]|e|].
    + rewrite Ha by discriminate. now apply IH.
    + now rewrite Ha by discriminate.
    + exfalso. now apply Hout.
Qed.

Lemma explore_tree_unfold (fuel : nat) leela entries board moves th :
  explore_tree (S fuel) leela entries board moves th
  = match probe moves leela with
    | (Ok children, leela1) =>
        match children with
        | [] => (Ok tt, leela1, entries)
        | _ :: _ =>
            match best_entry board children with
            | Ok entry =>
                explore_children (explore_tree fuel) board moves th
                  children leela1 (entries ++ [entry])
            | Raise e => (Raise e, leela1, entries)
            | OutOfFuel => (OutOfFuel, leela1, entries)
            end
        end
    | (Raise e, leela1) => (Raise e, leela1, entries)
    | (OutOfFuel, leela1) => (OutOfFuel, leela1, entries)
    end.
Proof. reflexivity. Qed.

Lemma explore_tree_more_fuel (fuel : nat) leela entries board moves th :
  outcome_of (explore_tree fuel leela entries board moves th) <> OutOfFuel ->
  explore_tree (S fuel) leela entries board moves th
  = explore_tree fuel leela entries board moves th.
Proof.
  revert leela entries board moves th.
  induction fuel as [|fuel IH]; intros leela entries board moves th Hout.
  - exfalso. now apply Hout.
  - rewrite (explore_tree_unfold (S fuel)), (explore_tree_unfold fuel).
    rewrite (explore_tree_unfold fuel) in Hout.
    destruct (probe moves leela) as [[children| |] leela1]; try reflexivity.
    destruct children as [|c children]; [reflexivity|].
    destruct (best_entry board (c :: children)); try reflexivity.
    apply explore_children_agree; [|exact Hout].
    intros l es b ms t Ho. now apply IH.
Qed.

(** X13: on an engine output of finite length the traversal ends: with a
    budget above that length it does not run out, and a larger budget gives
    the same run. *)
Theorem explore_tree_terminates (fuel extra : nat) leela entries board moves th :
  (String.length (stdout leela) < fuel)%nat ->
  outcome_of (explore_tree fuel leela entries board moves th) <> OutOfFuel
  /\ explore_tree (fuel + extra) leela entries board moves th
     = explore_tree fuel leela entries board moves th.
Proof.
  intros Hfuel.
  destruct (explore_tree_total fuel leela entries board moves th Hfuel) as [[Hout _] _].
  split; [exact Hout|].
  induction extra as [|extra IH]; [now rewrite Nat.add_0_r|].
  rewrite Nat.add_succ_r, explore_tree_more_fuel; [exact IH|]. now rewrite IH.
Qed.

(** X16: when the first move at or above the threshold is not legal on the
    board, [explore_tree] raises [AssertionError]; the entry of the position
    is in [entries] by then, and nothing was probed below the position. *)
Theorem explore_tree_illegal_child (fuel : nat) leela entries board moves th
    children leela1 entry move visits rest :
  probe moves leela = (Ok children, leela1) ->
  best_entry board children = Ok entry ->
  filter (fun mv => th <=? snd mv) children = (move, visits) :: rest ->
  is_legal board move = false ->
  explore_tree (S fuel) leela entries board moves th
  = (Raise AssertionError, leela1, entries ++ [entry]).
Proof.
  intros Hp Hb Hf Hlegal. cbn [explore_tree]. rewrite Hp.
  destruct children as [|c children]; [discriminate|]. rewrite Hb.
  rewrite explore_children_recurse_into, Hf. cbn [map fst recurse_into].
  now rewrite Hlegal.
Qed.

(** X17: a position all of whose moves are below the threshold gets its
    entry and ends the branch: one probe, one entry, no recursion. *)
Theorem explore_tree_all_below_threshold (fuel : nat) leela entries board moves th
    children leela1 entry :
  probe moves leela = (Ok children, leela1) ->
  best_entry board children = Ok entry ->
  Forall (fun mv => snd mv < th) children ->
  explore_tree (S fuel) leela entries board moves th
  = (Ok tt, leela1, entries ++ [entry]).
Proof.
  intros Hp Hb Hall. cbn [explore_tree]. rewrite Hp.
  destruct children as [|c children]; [discriminate|]. rewrite Hb.
  rewrite explore_children_recurse_into.
  replace (filter (fun mv => th <=? snd mv) (c :: children)) with (@nil (Move * Z));
    [reflexivity|].
  symmetry. clear -Hall. induction Hall as [|mv l Hmv _ IH]; [reflexivity|].
  cbn [filter]. replace (th <=? snd mv) with false by lia. exact IH.
Qed.

End MoreExplore.

(** ** From the traversal to the file *)

Lemma write_polyglot_bin_raises (f : list byte) (entries : list Entry) :
  Exists (fun e => entry_in_range e = false) entries ->
  fst (write_polyglot_bin f entries) = Raise StructError.
Proof.
  intros Hex.
  assert (Hex' : Exists (fun e => entry_in_range e = false) (sorted_by_key entries)).
  { rewrite Exists_exists in *. destruct Hex as (e & Hin & He). exists e. split; [|exact He].
    eapply Permutation_in; [symmetry; apply sorted_by_key_perm|exact Hin]. }
  destruct (first_out_of_range _ Hex') as (good & bad & rest & Heq & Hgood & Hbad).
  unfold write_polyglot_bin. rewrite Heq. now rewrite write_entries_fails.
Qed.

Lemma fs_get_put_same (name : string) (c : list byte) (fs : list (string * list byte)) :
  fs_get name (fs_put name c fs) = Some c.
Proof.
  induction fs as [|[n c0] fs IH]; cbn.
  - now rewrite String.eqb_refl.
  - destruct (String.eqb n name) eqn:Hn; cbn; rewrite Hn; [reflexivity|exact IH].
Qed.

Lemma fs_get_put_other (name n : string) (c : list byte) (fs : list (string * list byte)) :
  n <> name -> fs_get name (fs_put n c fs) = fs_get name fs.
Proof.
  intros Hne. apply String.eqb_neq in Hne.
  induction fs as [|[n0 c0] fs IH]; cbn.
  - now rewrite Hne.
  - destruct (String.eqb n0 n) eqn:Hn0; cbn.
    + apply String.eqb_eq in Hn0. subst n0. now rewrite Hne.
    + destruct (String.eqb n0 name); [reflexivity|exact IH].
Qed.

Section TraversalToFile.
Context `{ChessLib}.

Lemma probe_loop_suffix (fuel : nat) (children : dict) (self : Leela)
    (r : outcome dict) (self' : Leela) :
  probe_loop fuel children self = (r, self') ->
  exists a, stdout self = (a ++ stdout self')%string.
Proof.
  revert children self. induction fuel as [|fuel IH]; intros children self.
  - cbn. intros Heq. injection Heq as _ <-. now exists EmptyString.
  - cbn [probe_loop]. unfold readline.
    pose proof (split_line_app (stdout self)) as Happ.
    destruct (split_line (stdout self)) as [line rest]. cbn [fst snd] in Happ.
    destruct (contains "end-dump" line).
    + intros Heq. injection Heq as _ <-. now exists line.
    + destruct (parse_line line) as [[move visits]|e|].
      * intros Hloop. destruct (IH _ _ Hloop) as [a Ha]. cbn [stdout] in Ha.
        exists (line ++ a)%string. rewrite Happ, Ha. apply string_app_assoc.
      * intros Heq. injection Heq as _ <-. now exists line.
      * intros Heq. injection Heq as _ <-. now exists line.
Qed.

Lemma probe_suffix (moves : list Move) (self : Leela) (r : outcome dict) (self' : Leela) :
  probe moves self = (r, self') -> exists a, stdout self = (a ++ stdout self')%string.
Proof.
  unfold probe. destruct (mapM uci moves).
  - intros Hloop. apply (probe_loop_suffix _ _ _ _ _ Hloop).
  - intros Heq. injection Heq as _ <-. now exists EmptyString.
  - intros Heq. injection Heq as _ <-. now exists EmptyString.
Qed.

Lemma move_code_range (board : Board) (move : Move) (code : Z) :
  is_square (from_square move) -> is_square (to_square move) ->
  move_to_polyglot_int board move = Ok code -> 0 <= code < 2 ^ 16.
Proof.
  intros Hf Ht Hc.
  assert (Hwf : move_wf move).
  { repeat split; try apply Hf; try apply Ht;
      intros Hp; unfold move_to_polyglot_int in Hc; rewrite Hp in Hc; discriminate. }
  destruct (move_to_polyglot_int_fields board move Hwf) as (c & p & Hc' & _ & _ & _ & _ & Hr).
  congruence.
Qed.

(** X18: the weight is capped at 65535 and not bounded below: when every
    count of a probe result is negative, the entry of the position has a
    negative weight, and a file with that entry cannot be written. *)
Theorem best_entry_negative_weight (board : Board) (children : dict) (e : Entry)
    (f : list byte) (others : list Entry) :
  best_entry board children = Ok e ->
  Forall (fun mv => snd mv < 0) children ->
  weight e < 0
  /\ entry_in_range e = false
  /\ fst (write_polyglot_bin f (e :: others)) = Raise StructError.
Proof.
  intros Hb Hneg.
  destruct (best_entry_shape _ _ _ Hb) as (best & visits & code & Hin & _ & ->).
  rewrite Forall_forall in Hneg. specialize (Hneg _ Hin). cbn [snd] in Hneg.
  assert (Hw : Z.min 65535 (visits / 256) < 0).
  { assert (visits / 256 < 0) by (apply Z.div_lt_upper_bound; lia). lia. }
  assert (Hr : entry_in_range
                 {| key := zobrist_hash board; raw_move := code;
                    weight := Z.min 65535 (visits / 256); learn := 0 |} = false).
  { unfold entry_in_range, fits. cbn [key raw_move weight learn].
    replace (0 <=? Z.min 65535 (visits / 256)) with false by lia.
    cbn. now rewrite !andb_false_r. }
  repeat split; [exact Hw|exact Hr|].
  apply write_polyglot_bin_raises. now apply Exists_cons_hd.
Qed.

(** X19: with a 64-bit hash, moves with squares on the board, and an engine
    output that nowhere has a minus sign right after [n=], every entry a
    traversal collects fits the record, so that [write_polyglot_bin] writes
    the entries without raising. *)
Theorem explore_tree_entries_can_be_written (fuel : nat) leela board moves th
    (f : list byte) :
  (forall b, 0 <= zobrist_hash b < 2 ^ 64) ->
  (forall u m, from_uci u = Some m ->
               is_square (from_square m) /\ is_square (to_square m)) ->
  contains "n=-" (stdout leela) = false ->
  Forall (fun e => entry_in_range e = true)
         (snd (explore_tree fuel leela [] board moves th))
  /\ fst (write_polyglot_bin f (snd (explore_tree fuel leela [] board moves th))) = Ok tt.
Proof.
  intros Hhash Huci Hminus.
  assert (Hall : Forall (fun e => entry_in_range e = true)
                        (snd (explore_tree fuel leela [] board moves th))).
  { apply (explore_tree_inv (fun l => contains "n=-" (stdout l) = false)
             (fun e => entry_in_range e = true)); [|exact Hminus|constructor].
    intros ms l r l' Hp Hl. split.
    - destruct (probe_suffix _ _ _ _ Hp) as [a Ha].
      destruct (contains "n=-" (stdout l')) eqn:Hc'; [|reflexivity].
      rewrite Ha, (contains_after _ a _ Hc') in Hl. discriminate.
    - intros children b e -> Hb.
      destruct (best_entry_shape _ _ _ Hb) as (best & visits & code & Hin & Hcode & ->).
      destruct (probe_provenance _ _ _ _ Hp best visits Hin) as (line & Hline & Hparse).
      destruct (lines_of_in _ _ Hline) as [Hshape Hsub].
      destruct (parse_line_count line best visits Hshape Hparse)
        as [[u Hu] (g & Hg & Hc)].
      destruct (Huci u best Hu) as [Hfrom Hto].
      pose proof (move_code_range b best code Hfrom Hto Hcode) as Hrange.
      assert (Hvis : 0 <= visits).
      { apply (proj2 (py_int_chars g visits Hg)).
        destruct (starts_with "-" g) eqn:Hmg; [|reflexivity].
        rewrite <- Hl. symmetry.
        apply starts_with_split in Hmg. cbn [append String.length drop_chars] in Hmg.
        apply (contains_shorter "n=-" (drop_chars 1 g ++ " ")).
        replace ("n=-" ++ drop_chars 1 g ++ " ")%string with ("n=" ++ g ++ " ")%string
          by (rewrite Hmg at 1; reflexivity).
        apply Hsub; [discriminate|exact Hc]. }
      assert (0 <= visits / 256) by (apply Z.div_pos; lia).
      pose proof (Hhash b) as Hk.
      unfold entry_in_range, fits. cbn [key raw_move weight learn].
      change (2 ^ 16) with 65536 in *.
      repeat (apply andb_true_iff; split); lia. }
  split; [exact Hall|].
  unfold write_polyglot_bin. rewrite write_entries_ok; [reflexivity|].
  rewrite Forall_forall in *. intros e He. apply Hall.
  eapply Permutation_in; [apply sorted_by_key_perm|exact He].
Qed.

(** X20: without multiwrite the output file is written whenever the
    traversal returns, also when it found nothing: the file then exists and
    is empty.  It holds the records of the entries in key order. *)
Theorem single_write_always_writes (output : string) (th : Z) leela fs leela' entries :
  traversal th leela = (Ok tt, leela', entries) ->
  Forall (fun e => entry_in_range e = true) entries ->
  single_write output th leela fs
  = (Ok tt, leela', fs_put output (flat_map record_bytes (sorted_by_key entries)) fs)
  /\ fs_get output (snd (single_write output th leela fs))
     = Some (flat_map record_bytes (sorted_by_key entries))
  /\ (entries = [] -> fs_get output (snd (single_write output th leela fs)) = Some []).
Proof.
  intros Htr Hall. unfold traversal in Htr.
  assert (Heq : single_write output th leela fs
                = (Ok tt, leela',
                   fs_put output (flat_map record_bytes (sorted_by_key entries)) fs)).
  { unfold single_write. rewrite Htr. unfold write_polyglot_bin.
    rewrite write_entries_ok; [reflexivity|].
    rewrite Forall_forall in *. intros e He. apply Hall.
    eapply Permutation_in; [apply sorted_by_key_perm|exact He]. }
  rewrite Heq. cbn [snd]. rewrite fs_get_put_same.
  repeat split. now intros ->.
Qed.

Lemma multiwrite_name_prefix (output : string) (threshold : Z) :
  starts_with (output ++ "-") (multiwrite_name output threshold) = true.
Proof.
  unfold multiwrite_name.
  rewrite (string_app_assoc output "-"%string). apply starts_with_app.
Qed.

Lemma multiwrite_loop_other_files (output name : string) :
  starts_with (output ++ "-") name = false ->
  forall fuel threshold leela fs,
    fs_get name (snd (multiwrite_loop fuel output threshold leela fs)) = fs_get name fs.
Proof.
  intros Hname. assert (Hne : forall t, multiwrite_name output t <> name).
  { intros t Heq. rewrite <- Heq, multiwrite_name_prefix in Hname. discriminate. }
  induction fuel as [|fuel IH]; intros threshold leela fs; [reflexivity|].
  cbn [multiwrite_loop].
  destruct (explore_tree (enough_fuel leela) leela [] starting_board [] threshold)
    as [[[[]| |] leela'] entries]; try reflexivity.
  destruct (2 <? List.length entries)%nat; [|reflexivity].
  destruct (write_polyglot_bin [] entries) as [[[]| |] f]; cbn [snd].
  - rewrite IH. now apply fs_get_put_other.
  - now apply fs_get_put_other.
  - reflexivity.
Qed.

(** X21: the multiwrite mode changes and creates only files whose name
    starts with the output path and a dash; every other file is left as it
    was. *)
Theorem multiwrite_leaves_other_files (output name : string) leela fs :
  starts_with (output ++ "-") name = false ->
  fs_get name (snd (multiwrite output leela fs)) = fs_get name fs.
Proof. intros Hname. now apply multiwrite_loop_other_files. Qed.

End TraversalToFile.

(** ** The best move among ties, and what is sent to the engine *)

Lemma max_loop_first (f : Move -> outcome Z) (items : list Move) :
  forall (done_before : list Move) (best : Move) (bv : Z) (done_after : list Move),
    f best = Ok bv ->
    (forall k w, In k done_before -> f k = Ok w -> w < bv) ->
    (forall k w, In k done_after -> f k = Ok w -> w <= bv) ->
    forall m, max_loop f best bv items = Ok m ->
    exists A B v,
      done_before ++ best :: done_after ++ items = A ++ m :: B
      /\ f m = Ok v
      /\ (forall k w, In k A -> f k = Ok w -> w < v)
      /\ (forall k w, In k B -> f k = Ok w -> w <= v).
Proof.
  induction items as [|k items IH]; intros A0 best bv B0 Hbest HA HB m.
  - cbn. intros Heq. injection Heq as <-. exists A0, B0, bv.
    rewrite app_nil_r. now repeat split.
  - cbn [max_loop]. destruct (f k) as [vk| |] eqn:Hk; cbn [bind]; try discriminate.
    destruct (bv <? vk) eqn:Hlt.
    + intros Hm.
      destruct (IH (A0 ++ best :: B0) k vk [] Hk) with (m := m)
        as (A & B & v & Heq & Hfm & HA' & HB'); try exact Hm.
      * intros k' w Hin Hw. apply in_app_or in Hin.
        destruct Hin as [Hin|[<-|Hin]].
        -- specialize (HA _ _ Hin Hw). lia.
        -- rewrite Hbest in Hw. injection Hw as <-. lia.
        -- specialize (HB _ _ Hin Hw). lia.
      * intros k' w [].
      * exists A, B, v. repeat split; try assumption.
        rewrite <- Heq. cbn [app]. rewrite <- app_assoc. reflexivity.
    + intros Hm.
      destruct (IH A0 best bv (B0 ++ [k]) Hbest HA) with (m := m)
        as (A & B & v & Heq & Hfm & HA' & HB'); try exact Hm.
      * intros k' w Hin Hw. apply in_app_or in Hin.
        destruct Hin as [Hin|[<-|[]]].
        -- now apply (HB k').
        -- rewrite Hk in Hw. injection Hw as <-. lia.
      * exists A, B, v. repeat split; try assumption.
        rewrite <- Heq. rewrite <- (app_assoc B0). reflexivity.
Qed.

Lemma join_app (a b : list string) : join (a ++ b) = (join a ++ join b)%string.
Proof.
  induction a as [|x a IH]; [reflexivity|].
  unfold join in *. cbn [app fold_right]. rewrite IH. apply string_app_assoc.
Qed.

Section TiesAndCommands.
Context `{ChessLib}.

(** X22: among the moves with the largest count the entry is made for the
    one that the engine named first: the keys before it in the dictionary
    have smaller counts, the keys after it have counts that are not larger. *)
Theorem best_entry_first_among_ties (board : Board) (children : dict) (e : Entry) :
  best_entry board children = Ok e ->
  exists A best B v,
    dict_keys children = A ++ best :: B
    /\ getitem children best = Ok v
    /\ (forall k w, In k A -> getitem children k = Ok w -> w < v)
    /\ (forall k w, In k B -> getitem children k = Ok w -> w <= v)
    /\ move_to_polyglot_int board best = Ok (raw_move e)
    /\ weight e = Z.min 65535 (v / 256).
Proof.
  unfold best_entry, py_max.
  destruct (dict_keys children) as [|k items] eqn:Hkeys; [discriminate|].
  destruct (getitem children k) as [vk| |] eqn:Hk; cbn [bind]; try discriminate.
  destruct (max_loop (getitem children) k vk items) as [best| |] eqn:Hm;
    cbn [bind]; try discriminate.
  destruct (max_loop_first (getitem children) items [] k vk [] Hk) with (m := best)
    as (A & B & v & Heq & Hv & HA & HB); try exact Hm; try (intros ? ? []).
  rewrite Hv. cbn [bind]. unfold make_entry.
  destruct (move_to_polyglot_int board best) as [code| |] eqn:Hc; cbn [bind]; try discriminate.
  intros Heq'. injection Heq' as <-.
  exists A, best, B, v. cbn [raw_move weight]. now repeat split.
Qed.

Lemma mapM_uci_no_newline (moves : list Move) (ucis : list string) :
  mapM uci moves = Ok ucis -> Forall (fun u => has_char newline u = false) ucis.
Proof.
  revert ucis. induction moves as [|m moves IH]; intros ucis; cbn [mapM].
  - intros Heq. injection Heq as <-. constructor.
  - destruct (uci m) as [u| |] eqn:Hu; cbn [bind]; try discriminate.
    destruct (mapM uci moves) as [us| |]; cbn [bind]; try discriminate.
    intros Heq. injection Heq as <-. constructor; [now apply (uci_no_newline m)|now apply IH].
Qed.

Lemma dumpnode_command_line (moves : list Move) (ucis : list string) :
  mapM uci moves = Ok ucis ->
  starts_with "dumpnode moves" (dumpnode_command ucis) = true
  /\ lines_of (dumpnode_command ucis) = [dumpnode_command ucis].
Proof.
  intros Hm. split; [apply starts_with_app|].
  unfold dumpnode_command. rewrite (string_app_assoc "dumpnode moves"%string).
  apply lines_of_single.
  rewrite has_char_append, join_ucis_no_newline; [reflexivity|].
  now apply (mapM_uci_no_newline moves).
Qed.

(** X23: all that a traversal writes to the engine is a sequence of whole
    lines that start with [dumpnode moves]. *)
Theorem explore_tree_sends_only_dumpnode (fuel : nat) leela entries board moves th :
  exists cmds,
    stdin (leela_of (explore_tree fuel leela entries board moves th))
    = (stdin leela ++ join cmds)%string
    /\ Forall (fun c => starts_with "dumpnode moves" c = true /\ lines_of c = [c]) cmds.
Proof.
  destruct (explore_tree_inv
              (fun l => exists cmds,
                   stdin l = (stdin leela ++ join cmds)%string
                   /\ Forall (fun c => starts_with "dumpnode moves" c = true
                                       /\ lines_of c = [c]) cmds)
              (fun _ => True)) with (fuel := fuel) (leela := leela) (entries := entries)
              (board := board) (moves := moves) (th := th) as [Hl _].
  - intros ms l r l' Hp (cmds & Hin & Hall). split; [|trivial].
    destruct (mapM uci ms) as [ucis|e|] eqn:Hm.
    + destruct (probe_sends ms ucis l Hm) as (r0 & l0 & Hp0 & _ & Hin0 & _).
      rewrite Hp in Hp0. injection Hp0 as _ <-.
      exists (cmds ++ [dumpnode_command ucis]). split.
      * rewrite Hin0, Hin, join_app. cbn [join fold_right].
        rewrite string_app_nil_r. symmetry. apply string_app_assoc.
      * apply Forall_app. split; [exact Hall|].
        constructor; [now apply (dumpnode_command_line ms)|constructor].
    + unfold probe in Hp. rewrite Hm in Hp. injection Hp as _ <-. now exists cmds.
    + now apply mapM_uci_returns in Hm.
  - exists []. split; [now rewrite string_app_nil_r|constructor].
  - clear -entries. induction entries; constructor; auto.
  - exact Hl.
Qed.

End TiesAndCommands.

Section ReachedPositions.
Context `{ChessLib}.

Lemma explore_children_reached recurse board moves th items :
  frames recurse ->
  (forall l b ms t, Forall (reached_from b) (snd (recurse l [] b ms t))) ->
  forall leela entries,
    Forall (reached_from board) entries ->
    Forall (reached_from board)
      (snd (explore_children recurse board moves th items leela entries)).
Proof.
  intros Hframe Hrec. induction items as [|[move visits] items IH]; intros leela entries He.
  - exact He.
  - cbn [explore_children]. destruct (visits <? th); [now apply IH|].
    destruct (negb (is_legal board move)); [exact He|].
    rewrite (Hframe leela entries).
    pose proof (Hrec leela (push board move) (moves ++ [move]) th) as Hsub.
    destruct (recurse leela [] (push board move) (moves ++ [move]) th) as [[o l'] es'].
    cbn [snd with_prefix] in *.
    assert (Hall : Forall (reached_from board) (entries ++ es')).
    { apply Forall_app. split; [exact He|].
      rewrite Forall_forall in *. intros e Hin. destruct (Hsub e Hin) as [path Hpath].
      exists (move :: path). exact Hpath. }
    destruct o as [[]| |]; try exact Hall. now apply IH.
Qed.

Lemma explore_tree_reached (fuel : nat) leela board moves th :
  Forall (reached_from board) (snd (explore_tree fuel leela [] board moves th)).
Proof.
  revert leela board moves th. induction fuel as [|fuel IH]; intros leela board moves th.
  - constructor.
  - rewrite explore_tree_unfold.
    destruct (probe moves leela) as [[children| |] leela1]; try constructor.
    destruct children as [|c children]; [constructor|].
    destruct (best_entry board (c :: children)) as [entry| |] eqn:Hb; try constructor.
    apply explore_children_reached; [apply explore_tree_frame|exact IH|].
    constructor; [|constructor].
    destruct (best_entry_shape _ _ _ Hb) as (best & visits & code & _ & _ & ->).
    now exists [].
Qed.

(** X24: the key of every entry a traversal adds is the hash of a position
    that [push] reaches from the position the traversal started at. *)
Theorem explore_tree_keys_of_reached_positions (fuel : nat) leela entries board moves th :
  exists added,
    snd (explore_tree fuel leela entries board moves th) = entries ++ added
    /\ Forall (fun e => exists path, key e = zobrist_hash (fold_left push path board)) added.
Proof.
  exists (snd (explore_tree fuel leela [] board moves th)). split.
  - rewrite (explore_tree_frame fuel leela entries).
    now destruct (explore_tree fuel leela [] board moves th) as [[o l] es].
  - apply explore_tree_reached.
Qed.

End ReachedPositions.

(** ** Runs for the further properties *)

Lemma index_of_range (s : string) (l : list string) (k i : Z) :
  index_of s l k = Ok i -> k <= i < k + Z.of_nat (List.length l).
Proof.
  revert k. induction l as [|x l IH]; intros k; cbn [index_of]; [discriminate|].
  destruct (String.eqb x s).
  - intros Heq. injection Heq as <-. cbn [List.length]. lia.
  - intros Hi. apply IH in Hi. cbn [List.length]. lia.
Qed.

Lemma demo_from_uci_squares (u : string) (m : Move) :
  demo_from_uci u = Some m -> is_square (from_square m) /\ is_square (to_square m).
Proof.
  unfold demo_from_uci, is_square.
  destruct (String.eqb u "0000").
  - intros Heq. injection Heq as <-. cbn. lia.
  - destruct ((4 <=? String.length u)%nat && (String.length u <=? 5)%nat); [|discriminate].
    destruct (index_of (substring 0 2 u) SQUARE_NAMES 0) as [f| |] eqn:Hf;
      cbn [bind]; try discriminate.
    destruct (index_of (substring 2 2 u) SQUARE_NAMES 0) as [t| |] eqn:Ht;
      cbn [bind]; try discriminate.
    apply index_of_range in Hf, Ht.
    change (Z.of_nat (List.length SQUARE_NAMES)) with 64 in *.
    destruct (if (String.length u =? 5)%nat
              then q <- piece_of_symbol (substring 4 1 u);; Ok (Some q)
              else Ok None) as [p| |]; cbn [bind]; try discriminate.
    destruct (f =? t); [discriminate|].
    intros Heq. injection Heq as <-. cbn. lia.
Qed.

Lemma demo_hash_range (b : Board) : 0 <= demo_hash b < 2 ^ 64.
Proof. unfold demo_hash. apply Z.mod_pos_bound. reflexivity. Qed.

Lemma clear_buffer_stops_at_bestmove_witness :
  clear_buffer 200 (mkLeela "" search_stream)
  = (Ok tt,
     {| stdin := "";
        stdout := join [("move=e2e4 n=1000 " ++ line_end)%string;
                        ("end-dump" ++ line_end)%string] |}).
Proof.
  apply (clear_buffer_stops_at_bestmove 200 (mkLeela "" search_stream)
           [("info depth 1 score cp 20 pv e2e4" ++ line_end)%string]
           ("bestmove e2e4" ++ line_end)%string
           [("move=e2e4 n=1000 " ++ line_end)%string; ("end-dump" ++ line_end)%string]).
  - reflexivity.
  - repeat constructor.
  - reflexivity.
  - vm_compute. lia.
Defined.

Lemma clear_buffer_raises_at_end_of_stream_witness :
  clear_buffer 200 (mkLeela "" dead_stream)
  = (Raise ValueError, {| stdin := ""; stdout := EmptyString |}).
Proof.
  apply (clear_buffer_raises_at_end_of_stream 200 (mkLeela "" dead_stream)).
  - repeat constructor.
  - vm_compute. lia.
Defined.

Lemma stop_leaves_dump_witness :
  stop (launch (mkLeela "" search_stream))
  = {| stdin := ((("" ++ "position startpos" ++ line_end)
                  ++ "go infinite" ++ line_end) ++ "stop" ++ line_end)%string;
       stdout := join [("move=e2e4 n=1000 " ++ line_end)%string;
                       ("end-dump" ++ line_end)%string] |}.
Proof.
  apply (stop_leaves_dump (mkLeela "" search_stream)
           [("info depth 1 score cp 20 pv e2e4" ++ line_end)%string]
           ("bestmove e2e4" ++ line_end)%string
           [("move=e2e4 n=1000 " ++ line_end)%string; ("end-dump" ++ line_end)%string]).
  - reflexivity.
  - repeat constructor.
  - reflexivity.
Defined.


Lemma probe_reads_dump_witness :
  @probe demo_chess [] (mkLeela "" repeated_stream)
  = (Ok (build_dict [(e2e4, 1000); (d2d4, 5); (e2e4, 700)] []),
     {| stdin := ("" ++ dumpnode_command [])%string;
        stdout := join [("move=e7e5 n=3 " ++ line_end)%string] |}).
Proof.
  apply (@probe_reads_dump demo_chess [] [] (mkLeela "" repeated_stream)
           [("move=e2e4 n=1000 " ++ line_end)%string;
            ("move=d2d4 n=5 " ++ line_end)%string;
            ("move=e2e4 n=700 " ++ line_end)%string]
           [(e2e4, 1000); (d2d4, 5); (e2e4, 700)]
           ("end-dump move=g1f3 n=9 " ++ line_end)%string
           [("move=e7e5 n=3 " ++ line_end)%string]).
  - reflexivity.
  - reflexivity.
  - repeat constructor.
  - reflexivity.
Defined.

Lemma probe_later_line_wins_witness :
  exists d self',
    @probe demo_chess [] (mkLeela "" repeated_stream) = (Ok d, self')
    /\ forall m, getitem d m
                 = match last_visits [(e2e4, 1000); (d2d4, 5); (e2e4, 700)] m with
                   | Some v => Ok v
                   | None => Raise KeyError
                   end.
Proof.
  apply (@probe_later_line_wins demo_chess [] [] (mkLeela "" repeated_stream)
           [("move=e2e4 n=1000 " ++ line_end)%string;
            ("move=d2d4 n=5 " ++ line_end)%string;
            ("move=e2e4 n=700 " ++ line_end)%string]
           [(e2e4, 1000); (d2d4, 5); (e2e4, 700)]
           ("end-dump move=g1f3 n=9 " ++ line_end)%string
           [("move=e7e5 n=3 " ++ line_end)%string]).
  - reflexivity.
  - reflexivity.
  - repeat constructor.
  - reflexivity.
Defined.

Lemma probe_counts_are_followed_by_space_witness :
  exists g, py_int g = Ok 700 /\ contains ("n=" ++ g ++ " ") repeated_stream = true.
Proof.
  apply (@probe_counts_are_followed_by_space demo_chess [] (mkLeela "" repeated_stream)
           [(e2e4, 700); (d2d4, 5)]
           {| stdin := ("dumpnode moves" ++ line_end)%string;
              stdout := ("move=e7e5 n=3 " ++ line_end)%string |}
           eq_refl e2e4 700).
  now left.
Defined.

Lemma explore_tree_terminates_witness :
  outcome_of (@explore_tree demo_chess 200 (mkLeela "" pruning_stream) []
                starting_board [] 10) <> OutOfFuel
  /\ @explore_tree demo_chess (200 + 7) (mkLeela "" pruning_stream) [] starting_board [] 10
     = @explore_tree demo_chess 200 (mkLeela "" pruning_stream) [] starting_board [] 10.
Proof.
  apply (@explore_tree_terminates demo_chess 200 7 (mkLeela "" pruning_stream) []
           starting_board [] 10).
  vm_compute. lia.
Defined.

Lemma explore_tree_illegal_child_witness :
  @explore_tree demo_chess 5 (mkLeela "" illegal_stream) [] starting_board [] 10
  = (Raise AssertionError, mkLeela ("dumpnode moves" ++ line_end) "",
     [] ++ [ {| key := demo_hash starting_board; raw_move := 3364;
                weight := 3; learn := 0 |} ]).
Proof.
  apply (@explore_tree_illegal_child demo_chess 4 (mkLeela "" illegal_stream) []
           starting_board [] 10 [(e7e5, 1000)]
           (mkLeela ("dumpnode moves" ++ line_end) "")
           {| key := demo_hash starting_board; raw_move := 3364; weight := 3; learn := 0 |}
           e7e5 1000 []).
  - reflexivity.
  - reflexivity.
  - reflexivity.
  - reflexivity.
Defined.

Lemma explore_tree_all_below_threshold_witness :
  @explore_tree demo_chess 5 (mkLeela "" pruning_stream) [] starting_board [] 2000
  = (Ok tt, mkLeela ("dumpnode moves" ++ line_end) (lines ["end-dump"%string]),
     [] ++ [pruning_entry]).
Proof.
  apply (@explore_tree_all_below_threshold demo_chess 4 (mkLeela "" pruning_stream) []
           starting_board [] 2000 pruning_children
           (mkLeela ("dumpnode moves" ++ line_end) (lines ["end-dump"%string]))
           pruning_entry).
  - reflexivity.
  - reflexivity.
  - repeat constructor.
Defined.

Lemma best_entry_negative_weight_witness :
  weight {| key := demo_hash starting_board; raw_move := 796; weight := -1; learn := 0 |} < 0
  /\ entry_in_range
       {| key := demo_hash starting_board; raw_move := 796; weight := -1; learn := 0 |}
     = false
  /\ fst (write_polyglot_bin []
            ({| key := demo_hash starting_board; raw_move := 796; weight := -1; learn := 0 |}
             :: demo_entries))
     = Raise StructError.
Proof.
  apply (@best_entry_negative_weight demo_chess starting_board [(e2e4, -5)]
           {| key := demo_hash starting_board; raw_move := 796; weight := -1; learn := 0 |}
           [] demo_entries).
  - reflexivity.
  - repeat constructor.
Defined.

Lemma explore_tree_entries_can_be_written_witness :
  Forall (fun e => entry_in_range e = true)
         (snd (@explore_tree demo_chess 200 (mkLeela "" multiwrite_stream) []
                 starting_board [] 256))
  /\ fst (write_polyglot_bin []
            (snd (@explore_tree demo_chess 200 (mkLeela "" multiwrite_stream) []
                    starting_board [] 256)))
     = Ok tt.
Proof.
  apply (@explore_tree_entries_can_be_written demo_chess 200 (mkLeela "" multiwrite_stream)
           starting_board [] 256 []).
  - exact demo_hash_range.
  - exact demo_from_uci_squares.
  - reflexivity.
Defined.

Lemma single_write_always_writes_witness :
  @single_write demo_chess "book.bin" 10 (mkLeela "" (lines ["end-dump"%string])) []
  = (Ok tt, mkLeela ("dumpnode moves" ++ line_end) "",
     fs_put "book.bin" (flat_map record_bytes (sorted_by_key [])) [])
  /\ fs_get "book.bin"
       (snd (@single_write demo_chess "book.bin" 10
               (mkLeela "" (lines ["end-dump"%string])) []))
     = Some (flat_map record_bytes (sorted_by_key []))
  /\ (@nil Entry = [] ->
      fs_get "book.bin"
        (snd (@single_write demo_chess "book.bin" 10
                (mkLeela "" (lines ["end-dump"%string])) []))
      = Some []).
Proof.
  apply (@single_write_always_writes demo_chess "book.bin" 10
           (mkLeela "" (lines ["end-dump"%string])) []
           (mkLeela ("dumpnode moves" ++ line_end) "") []).
  - reflexivity.
  - constructor.
Defined.

Lemma multiwrite_leaves_other_files_witness :
  fs_get "book.bin"
    (snd (@multiwrite demo_chess "book" (mkLeela "" multiwrite_stream)
            [("book.bin"%string, [x00])]))
  = fs_get "book.bin" [("book.bin"%string, [x00])].
Proof.
  apply (@multiwrite_leaves_other_files demo_chess "book" "book.bin"
           (mkLeela "" multiwrite_stream) [("book.bin"%string, [x00])]).
  reflexivity.
Defined.

Lemma best_entry_first_among_ties_witness :
  exists A best B v,
    dict_keys [(d2d4, 1000); (e2e4, 1000)] = A ++ best :: B
    /\ getitem [(d2d4, 1000); (e2e4, 1000)] best = Ok v
    /\ (forall k w, In k A -> getitem [(d2d4, 1000); (e2e4, 1000)] k = Ok w -> w < v)
    /\ (forall k w, In k B -> getitem [(d2d4, 1000); (e2e4, 1000)] k = Ok w -> w <= v)
    /\ move_to_polyglot_int starting_board best
       = Ok (raw_move {| key := demo_hash starting_board; raw_move := 731;
                         weight := 3; learn := 0 |})
    /\ weight {| key := demo_hash starting_board; raw_move := 731; weight := 3; learn := 0 |}
       = Z.min 65535 (v / 256).
Proof.
  apply (@best_entry_first_among_ties demo_chess starting_board
           [(d2d4, 1000); (e2e4, 1000)]
           {| key := demo_hash starting_board; raw_move := 731; weight := 3; learn := 0 |}).
  reflexivity.
Defined.
